(** * The step executor of harness-docker-runner

    A shallow embedding of [pipeline/runtime/step_executor.go]: the
    registries of [StepExecutor], [StartStep], [PollStep], [StreamOutput],
    [executeStep], [executeStepDrone], [run] and [convertStatus].

    Go values are modelled as follows.
    - A pointer that the executor only passes around ([*runtime.State],
      [*types.TelemetryData], the elements of [[]*api.OutputV2]) is an
      [option]: [None] is the nil pointer.
    - An [error] interface value is [ErrNil], a plain error value, or the
      address of a [*multierror.Error]; the [Errors] slices of the latter
      live in an explicit heap, because [multierror.Append] updates its
      first argument in place.
    - The three registries are [gmap]s keyed by the step identifier.
    - A goroutine is a task of a small interleaving semantics whose atomic
      steps are the sections of the source that run under [e.mu] and the
      single channel operations between them. *)

From Stdlib Require Import ZArith String List Ascii.
From stdpp Require Import base gmap strings list pretty.

Open Scope string_scope.
Open Scope Z_scope.
Open Scope list_scope.

(** ** Errors *)

Module Errors.

(** Error values that are not a [*multierror.Error]: the two sentinel errors
    of package [context] and errors built by [fmt.Errorf] or by a
    collaborator (the engine, the log writer). *)
Inductive plain_error :=
  | Canceled
  | DeadlineExceeded
  | Errorf (msg : string).

(** [err.Error()] for a plain error. *)
Definition plain_text (c : plain_error) : string :=
  match c with
  | Canceled => "context canceled"
  | DeadlineExceeded => "context deadline exceeded"
  | Errorf msg => msg
  end.

(** A value of interface type [error]. *)
Inductive error :=
  | ErrNil
  | ErrPlain (c : plain_error)
  | ErrMulti (p : nat).

Definition is_nil (e : error) : bool :=
  match e with ErrNil => true | _ => false end.

(** The heap of [multierror.Error] objects: cell [p] holds the [Errors]
    slice of the object at address [p].  [&Error{}] allocates at the end. *)
Abbreviation heap := (list (list plain_error)).

Definition Errors (h : heap) (p : nat) : list plain_error :=
  default [] (h !! p).

(** The causes an error value stands for. *)
Definition causes (h : heap) (e : error) : list plain_error :=
  match e with
  | ErrNil => []
  | ErrPlain c => [c]
  | ErrMulti q => Errors h q
  end.

(** One round of the flattening loop of [multierror.Append]:
    [err.Errors = append(err.Errors, e.Errors...)] for a [*Error],
    [err.Errors = append(err.Errors, e)] for another non-nil error, and
    nothing for nil.  The object at [p] is updated in place. *)
Definition append_one (p : nat) (h : heap) (e : error) : heap :=
  match e with
  | ErrNil => h
  | _ => <[p := Errors h p ++ causes h e]> h
  end.

(** [multierror.Append(err, errs...)] of github.com/hashicorp/go-multierror.
    When [err] is a [*Error] the errors are appended to that very object
    and its address is returned; otherwise a fresh [&Error{}] is allocated
    and [err] (when non-nil) followed by [errs] is appended to it. *)
Definition Append (err : error) (errs : list error) (h : heap) : nat * heap :=
  match err with
  | ErrMulti p => (p, foldl (append_one p) h errs)
  | ErrPlain _ => (length h, foldl (append_one (length h)) (h ++ [[]]) (err :: errs))
  | ErrNil => (length h, foldl (append_one (length h)) (h ++ [[]]) errs)
  end.

Definition nl : string := String "010" EmptyString.
Definition tab : string := String "009" EmptyString.

(** [strings.Join(points, sep)]. *)
Fixpoint Join (points : list string) (sep : string) : string :=
  match points with
  | [] => ""
  | [x] => x
  | x :: rest => x +:+ sep +:+ Join rest sep
  end.

(** [multierror.ListFormatFunc], the default [ErrorFormat]. *)
Definition ListFormatFunc (es : list plain_error) : string :=
  match es with
  | [e] => "1 error occurred:" +:+ nl +:+ tab +:+ "* " +:+ plain_text e +:+ nl +:+ nl
  | _ =>
      pretty (Z.of_nat (length es)) +:+ " errors occurred:" +:+ nl +:+ tab
        +:+ Join (map (fun e => "* " +:+ plain_text e) es) (nl +:+ tab) +:+ nl +:+ nl
  end.

(** [err.Error()] for a non-nil error value. *)
Definition Error_text (h : heap) (e : error) : string :=
  match e with
  | ErrNil => ""
  | ErrPlain c => plain_text c
  | ErrMulti p => ListFormatFunc (Errors h p)
  end.

(** Code that calls [Append] threads the heap: a state monad. *)
Definition M (A : Type) : Type := heap -> A * heap.

#[global] Instance M_ret : MRet M := fun A (a : A) h => (a, h).
#[global] Instance M_bind : MBind M :=
  fun A B (k : A -> M B) (m : M A) h => let '(a, h') := m h in k a h'.

(** [x = multierror.Append(err, e)] with [x] of type [error]. *)
Definition AppendTo (err e : error) : M error :=
  fun h => let '(p, h') := Append err [e] h in (ErrMulti p, h').

(** [err.Error()] reads the object [err] points to. *)
Definition Error (e : error) : M string := fun h => (Error_text h e, h).

(** No dangling address: every [*Error] an error value names is allocated. *)
Definition valid (h : heap) (e : error) : Prop :=
  match e with
  | ErrMulti q => (q < length h)%nat
  | _ => True
  end.

End Errors.
Import Errors.

(** [strings.Contains(s, sub)], used to state what an error text mentions. *)
Definition Contains (s sub : string) : bool :=
  match String.index 0 sub s with Some _ => true | None => false end.

(** ** Data model *)

(** [ExecutionStatus] and its three constants. *)
Inductive ExecutionStatus := NotStarted | Running | Complete.

(** [runtime.State] of the library drone/runner-go: what the engine reports
    of the process. *)
Record State := mkState {
  ExitCode : Z;
  Exited : bool;
  OOMKilled : bool
}.

(** [*types.TelemetryData] and [*api.OutputV2] are only passed around: a
    value stands for the address of the object. *)
Definition TelemetryData := nat.
Definition OutputV2 := nat.

(** [StepStatus].  The fields [State] and [OutputV2] are [StepState] and
    [StepOutputV2] here, those names being taken by their types. *)
Record StepStatus := mkStepStatus {
  Status : ExecutionStatus;
  StepState : option State;
  StepErr : error;
  Outputs : option (gmap string string);
  Artifact : option (list Byte.byte);
  StepOutputV2 : option (list OutputV2);
  OptimizationState : string;
  Telemetry : option TelemetryData
}.

(** Modelled from the spec: [api.PollStepResponse] (package [api] is not
    among the sources at hand), with the output fields of Poll, which are
    the fields [convertStatus] fills in; they carry the prefix [r] to tell
    them from those of [StepStatus] and [State]. *)
Record PollStepResponse := mkPollStepResponse {
  rExited : bool;
  rExitCode : Z;
  rError : string;
  rOOMKilled : bool;
  rOutputs : option (gmap string string);
  rArtifact : option (list Byte.byte);
  rOutputV2 : option (list OutputV2);
  rOptimizationState : string;
  rTelemetry : option TelemetryData
}.

(** Modelled from the spec: the step kinds of package [api], [Run],
    [RunTestsV2] and the legacy test run. *)
Inductive StepKind := Run | RunTestsV2 | RunTests.

(** Modelled from the spec: [api.StartStepRequest] (package [api] is not
    among the sources at hand), with the fields the executor reads. *)
Record StartStepRequest := mkRequest {
  ID : string;
  Name : string;
  Kind : StepKind;
  Timeout : Z;
  Detach : bool;
  LogDrone : bool;
  LogKey : string
}.

(** ** Response conversion *)

(** [convertStatus].  The heap is threaded through because of the calls of
    [multierror.Append] on [stepErr], which starts as [status.StepErr]. *)
Definition convertStatus (status : StepStatus) : M PollStepResponse :=
  let stepErr := StepErr status in
  '(exited, oom, code, stepErr) ←
    match StepState status with
    | Some st =>
        stepErr ←
          (if OOMKilled st then
             AppendTo stepErr (ErrPlain (Errorf "oom killed"))
           else if negb (ExitCode st =? 0) then
             AppendTo stepErr (ErrPlain (Errorf ("exit status " +:+ pretty (ExitCode st))))
           else mret stepErr);
        mret (Exited st, OOMKilled st, ExitCode st, stepErr)
    | None => mret (true, false, 0, stepErr)
    end;
  let code := if is_nil (StepErr status) then code else 255 in
  text ← (if is_nil stepErr then mret "" else Error stepErr);
  mret {| rExited := exited;
          rExitCode := code;
          rError := text;
          rOOMKilled := oom;
          rOutputs := Outputs status;
          rArtifact := Artifact status;
          rOutputV2 := StepOutputV2 status;
          rOptimizationState := OptimizationState status;
          rTelemetry := Telemetry status |}.

(** ** Running a step *)

(** The seven values returned by [run] and by [executeStep]. *)
Record RunResult := mkRunResult {
  res_state : option State;
  res_outputs : option (gmap string string);
  res_artifact : option (list Byte.byte);
  res_outputV2 : option (list OutputV2);
  res_optimizationState : string;
  res_telemetry : option TelemetryData;
  res_err : error
}.

(** What the engine answers for each of the three execution strategies;
    the strategies themselves are collaborators outside the executor. *)
Record Engine := mkEngine {
  executeRunStep : RunResult;
  executeRunTestsV2Step : RunResult;
  executeRunTestStep : RunResult
}.

(** [run]: routing by step kind. *)
Definition run (eng : Engine) (r : StartStepRequest) : RunResult :=
  match Kind r with
  | Run => executeRunStep eng
  | RunTestsV2 => executeRunTestsV2Step eng
  | RunTests => executeRunTestStep eng
  end.

(** How a context with a deadline is found when the run has returned. *)
Inductive ctx_outcome := Alive | EndCanceled | EndDeadlineExceeded.

(** The contexts [executeStep] and [executeStepDrone] build.  [cancel] is
    only called by a [defer], after every [ctx.Err()] of the function, so a
    context ends only through its deadline or as the environment says. *)
Inductive context :=
  | Background
  | WithCancel
  | WithTimeout (o : ctx_outcome).

(** [ctx.Err()]. *)
Definition ctx_Err (c : context) : error :=
  match c with
  | WithTimeout EndCanceled => ErrPlain Canceled
  | WithTimeout EndDeadlineExceeded => ErrPlain DeadlineExceeded
  | _ => ErrNil
  end.

(** What the collaborators of one run answer: the engine, the context's
    fate, [wc.Close()] and [wc.Error()] of the log writer.  The error of
    [wr.Open()] is only logged and is left out. *)
Record StepEnv := mkStepEnv {
  engine : Engine;
  ctx_fate : ctx_outcome;
  wc_Close : error;
  wc_Error : error
}.

(** [r.Kind = k]. *)
Definition set_Kind (k : StepKind) (r : StartStepRequest) : StartStepRequest :=
  {| ID := ID r; Name := Name r; Kind := k; Timeout := Timeout r;
     Detach := Detach r; LogDrone := LogDrone r; LogKey := LogKey r |}.

(** [&runtime.State{Exited: false}]. *)
Definition not_exited : State :=
  {| ExitCode := 0; Exited := false; OOMKilled := false |}.

(** The context of [executeStepDrone]. *)
Definition drone_ctx (r : StartStepRequest) (env : StepEnv) : context :=
  if 0 <? Timeout r then WithTimeout (ctx_fate env) else WithCancel.

(** The return value of [executeStepDrone]; the registration of the step
    log, its only effect on the executor, is [executeStepDrone_register]
    below. *)
Definition executeStepDrone (r : StartStepRequest) (env : StepEnv) : option State * error :=
  let ctx := drone_ctx r env in
  let runStep :=
    let res := run (engine env) (set_Kind Run r) in
    match ctx_Err ctx with
    | ErrPlain Canceled | ErrPlain DeadlineExceeded => (None, ctx_Err ctx)
    | _ =>
        if negb (is_nil (res_err res)) then (None, res_err res)
        else (res_state res, ErrNil)
    end in
  if Detach r then (Some not_exited, ErrNil) else runStep.

(** The context of the primary path of [executeStep]. *)
Definition step_ctx (r : StartStepRequest) (env : StepEnv) : context :=
  if 0 <? Timeout r then WithTimeout (ctx_fate env) else Background.

(** The return value of [executeStep]. *)
Definition executeStep (r : StartStepRequest) (env : StepEnv) : M RunResult :=
  if LogDrone r then
    let '(state, err) := executeStepDrone r env in
    mret (mkRunResult state None None None "" None err)
  else if Detach r then
    mret (mkRunResult (Some not_exited) None None None "" None ErrNil)
  else
    let result := ErrNil in
    let ctx := step_ctx r env in
    let res := run (engine env) r in
    let err := res_err res in
    result ← (if negb (is_nil err) then AppendTo result err else mret result);
    let err := wc_Close env in
    result ← (if negb (is_nil err) then AppendTo result err else mret result);
    match ctx_Err ctx with
    | ErrPlain Canceled | ErrPlain DeadlineExceeded =>
        mret (mkRunResult None None None None "" (res_telemetry res) (ctx_Err ctx))
    | _ =>
        result ←
          match res_state res with
          | Some exited =>
              if negb (ExitCode exited =? 0) && negb (is_nil (wc_Error env))
              then AppendTo result err
              else mret result
          | None => mret result
          end;
        mret (mkRunResult (res_state res) (res_outputs res) (res_artifact res)
                (res_outputV2 res) (res_optimizationState res) (res_telemetry res) result)
    end.

(** The status the goroutine of [StartStep] builds from these values. *)
Definition complete_status (res : RunResult) : StepStatus :=
  {| Status := Complete;
     StepState := res_state res;
     StepErr := res_err res;
     Outputs := res_outputs res;
     Artifact := res_artifact res;
     StepOutputV2 := res_outputV2 res;
     OptimizationState := res_optimizationState res;
     Telemetry := res_telemetry res |}.

(** ** The executor and its registries *)

(** [StepExecutor].  The log buffers and the channels are held by address.
    The field [engine] is what [StepEnv] answers for; the mutex [mu] is
    rendered by the atomicity of the steps of the interleaving below. *)
Record StepExecutor := mkExecutor {
  stepStatus : gmap string StepStatus;
  stepLog : gmap string nat;
  stepWaitCh : gmap string (list nat)
}.

(** [NewStepExecutor]: three empty maps. *)
Definition NewStepExecutor : StepExecutor :=
  {| stepStatus := ∅; stepLog := ∅; stepWaitCh := ∅ |}.

(** Modelled from the spec: the errors returned to a caller, the
    request-validation error [errors.BadRequestError] of this repository's
    package [errors] (not among the sources at hand) and [ctx.Err()]. *)
Inductive api_error :=
  | BadRequestError (Msg : string)
  | ContextError (c : plain_error).

(** [StepStatus{Status: Running}]. *)
Definition running_status : StepStatus :=
  {| Status := Running; StepState := None; StepErr := ErrNil; Outputs := None;
     Artifact := None; StepOutputV2 := None; OptimizationState := "";
     Telemetry := None |}.

(** [&api.PollStepResponse{}]. *)
Definition empty_response : PollStepResponse :=
  {| rExited := false; rExitCode := 0; rError := ""; rOOMKilled := false;
     rOutputs := None; rArtifact := None; rOutputV2 := None;
     rOptimizationState := ""; rTelemetry := None |}.

(** [StartStep] up to its [go] statement: the error returned, whether the
    goroutine is launched, and the executor when [e.mu] is released. *)
Definition StartStep (r : StartStepRequest) (e : StepExecutor)
  : option api_error * bool * StepExecutor :=
  if decide (ID r = "") then (Some (BadRequestError "ID needs to be set"), false, e)
  else
    match stepStatus e !! ID r with
    | Some _ => (None, false, e)
    | None =>
        (None, true,
         {| stepStatus := <[ID r := running_status]> (stepStatus e);
            stepLog := stepLog e;
            stepWaitCh := stepWaitCh e |})
    end.

(** The locked section of the goroutine of [StartStep], once [executeStep]
    has returned: the status is stored and the waiters are read. *)
Definition store_complete (id : string) (status : StepStatus) (e : StepExecutor)
  : list nat * StepExecutor :=
  (default [] (stepWaitCh e !! id),
   {| stepStatus := <[id := status]> (stepStatus e);
      stepLog := stepLog e;
      stepWaitCh := stepWaitCh e |}).

(** The registration of the channel [ch] in [PollStep]: [append] when the
    identifier has no entry, a one-element slice when it has one. *)
Definition register_waiter (id : string) (ch : nat) (e : StepExecutor) : StepExecutor :=
  {| stepStatus := stepStatus e;
     stepLog := stepLog e;
     stepWaitCh :=
       match stepWaitCh e !! id with
       | None => <[id := default [] (stepWaitCh e !! id) ++ [ch]]> (stepWaitCh e)
       | Some _ => <[id := [ch]]> (stepWaitCh e)
       end |}.

(** What [PollStep] has decided when it releases [e.mu]. *)
Inductive poll_decision :=
  | PollFail (err : api_error)
  | PollConvert (s : StepStatus)
  | PollWait.

(** [PollStep] up to [e.mu.Unlock()]; [ch] is the channel it makes. *)
Definition PollStep (id : string) (ch : nat) (e : StepExecutor)
  : poll_decision * StepExecutor :=
  if decide (id = "") then (PollFail (BadRequestError "ID needs to be set"), e)
  else
    match stepStatus e !! id with
    | None => (PollFail (BadRequestError "Step has not started"), e)
    | Some s =>
        match Status s with
        | Complete => (PollConvert s, e)
        | _ => (PollWait, register_waiter id ch e)
        end
    end.

(** Modelled from the spec: the Log Buffer ([StepLog], with [NewStepLog],
    [Subscribe], [Unsubscribe] and [Done]), whose source file is not part of
    the sources at hand.  It holds the accumulated output and the subscriber
    channels, and is done when the context it is bound to ends. *)
Record StepLog := mkStepLog {
  log_data : list Byte.byte;
  log_subscribers : list nat;
  log_done : bool
}.

(** Modelled from the spec: [NewStepLog(ctx)], an open log without output
    and without subscribers. *)
Definition NewStepLog : StepLog :=
  {| log_data := []; log_subscribers := []; log_done := false |}.

(** Modelled from the spec: [Subscribe] returns the bytes buffered from
    [offset] on and adds the channel to the subscribers.  The spec names no
    failure of it, while [StreamOutput] handles the error it returns: [err]
    is that answer of the buffer, and a [Subscribe] that fails is taken to
    return no bytes and to subscribe nothing. *)
Definition Subscribe (ch offset : nat) (err : error) (l : StepLog)
  : list Byte.byte * error * StepLog :=
  if is_nil err then
    (drop offset (log_data l), ErrNil,
     {| log_data := log_data l;
        log_subscribers := log_subscribers l ++ [ch];
        log_done := log_done l |})
  else ([], err, l).

(** Modelled from the spec: [Unsubscribe] removes the channel and may be
    called any number of times. *)
Definition Unsubscribe (ch : nat) (l : StepLog) : StepLog :=
  {| log_data := log_data l;
     log_subscribers := filter (fun c => c ≠ ch) (log_subscribers l);
     log_done := log_done l |}.

(** Modelled from the spec: the context the log is bound to has ended. *)
Definition finish_log (l : StepLog) : StepLog :=
  {| log_data := log_data l;
     log_subscribers := log_subscribers l;
     log_done := true |}.

(** [e.stepLog[r.ID] = stepLog] in [executeStepDrone]. *)
Definition executeStepDrone_register (id : string) (log : nat) (e : StepExecutor)
  : StepExecutor :=
  {| stepStatus := stepStatus e;
     stepLog := <[id := log]> (stepLog e);
     stepWaitCh := stepWaitCh e |}.

(** ** Goroutines and their interleaving *)

(** Where a goroutine, or a call that is blocked, stands. *)
Inductive task :=
  | GoStart (r : StartStepRequest)
      (** the goroutine of [StartStep], before [executeStep] calls [run] *)
  | GoRun (r : StartStepRequest) (log : option nat)
      (** the same goroutine inside [run] *)
  | GoDeliver (id : string) (status : StepStatus) (channels : list nat)
      (** the same goroutine in its loop [for _, ch := range channels] *)
  | GoDaemon (log : option nat)
      (** the run of a detached step *)
  | PollWaiting (ctx : nat) (ch : nat)
      (** a [PollStep] blocked in [status := <-ch] *)
  | StreamLooking (ctx : nat) (id : string) (offset : nat)
      (** a [StreamOutput] about to read [e.stepLog[id]] *)
  | StreamSleeping (ctx : nat) (id : string) (offset : nat)
      (** a [StreamOutput] in the [select] of its wait loop *)
  | Watcher (ctx : nat) (chData : nat) (log : nat)
      (** the goroutine [StreamOutput] leaves behind *)
  | Returned.

(** The process: the executor, the objects it shares with its callers and
    goroutines, and where each of these stands. *)
Record World := mkWorld {
  executor : StepExecutor;
  errors : heap;
  status_chans : list (list StepStatus);
      (** the buffers of the channels made by [PollStep], of capacity 1 *)
  step_logs : list StepLog;
  data_closed : list bool;
      (** the channels made by [StreamOutput]: closed or not *)
  canceled : gset nat;
      (** the request contexts that are done *)
  tasks : list task
}.

(** The process after [NewStepExecutor], before any call. *)
Definition initial : World :=
  {| executor := NewStepExecutor; errors := []; status_chans := [];
     step_logs := []; data_closed := []; canceled := ∅; tasks := [] |}.

(** What ends the [select] in the wait loop of [StreamOutput]: the retry
    timer, or [ctx.Done()].  The world records that a context is done, not
    why: [ctx.Err()] is then one of the two errors of package [context],
    [DeadlineExceeded] when [deadline] is set and [Canceled] otherwise. *)
Inductive wakeup :=
  | TimerFired
  | CtxDone (deadline : bool).

(** [ctx.Err()] of a context that is done. *)
Definition done_Err (deadline : bool) : plain_error :=
  if deadline then DeadlineExceeded else Canceled.

(** What the scheduler and the collaborators choose. *)
Inductive action :=
  | CallStartStep (r : StartStepRequest)
  | CallPollStep (ctx : nat) (id : string)
  | CallStreamOutput (ctx : nat) (id : string) (offset : nat)
  | Cancel (ctx : nat)
      (** a caller's context is canceled, or its deadline passes *)
  | EnterRun (t : nat)
      (** goroutine [t] enters [executeStep] and reaches the call of [run] *)
  | ReturnRun (t : nat) (env : StepEnv)
      (** [executeStep] returns in goroutine [t]; the status is stored *)
  | Send (t : nat)
      (** goroutine [t] executes its next [ch <- status] *)
  | DaemonExit (t : nat)
      (** the run of a detached step ends *)
  | Receive (t : nat)
      (** the blocked [PollStep] [t] receives and returns *)
  | StreamLookup (t : nat) (elapsed : Z) (sub : error)
      (** one lookup of the wait loop, [elapsed] ms after the call; [sub] is
          what [stepLog.Subscribe] answers if the buffer is found *)
  | StreamWake (t : nat) (wake : wakeup)
      (** the [select] of the wait loop fires *)
  | Watch (t : nat).
      (** the [select] of the watcher goroutine fires *)

(** What a caller or an observer sees of a step. *)
Inductive event :=
  | StartReturned (id : string) (err : option api_error) (launched : bool)
  | PollReturned (id : string) (resp : PollStepResponse) (err : option api_error)
  | PollBlocked (id : string) (t : nat)
  | PollDelivered (t : nat) (resp : PollStepResponse)
  | StreamReturned (oldOut : list Byte.byte) (chData : nat)
  | StreamFailed (err : api_error)
  | StreamAborted (oldOut : list Byte.byte) (err : error)
      (** [StreamOutput] returns what a failing [Subscribe] has returned *)
  | Silent.

(** [timeoutDelay] of [StreamOutput], in milliseconds. *)
Definition timeoutDelay : Z := 5000.

(** Updates of one component of the world. *)
Definition set_task (t : nat) (k : task) (w : World) : World :=
  {| executor := executor w; errors := errors w; status_chans := status_chans w;
     step_logs := step_logs w; data_closed := data_closed w;
     canceled := canceled w; tasks := <[t := k]> (tasks w) |}.

Definition spawn (k : task) (w : World) : World :=
  {| executor := executor w; errors := errors w; status_chans := status_chans w;
     step_logs := step_logs w; data_closed := data_closed w;
     canceled := canceled w; tasks := tasks w ++ [k] |}.

Definition set_executor (e : StepExecutor) (w : World) : World :=
  {| executor := e; errors := errors w; status_chans := status_chans w;
     step_logs := step_logs w; data_closed := data_closed w;
     canceled := canceled w; tasks := tasks w |}.

Definition set_errors (h : heap) (w : World) : World :=
  {| executor := executor w; errors := h; status_chans := status_chans w;
     step_logs := step_logs w; data_closed := data_closed w;
     canceled := canceled w; tasks := tasks w |}.

Definition set_status_chans (c : list (list StepStatus)) (w : World) : World :=
  {| executor := executor w; errors := errors w; status_chans := c;
     step_logs := step_logs w; data_closed := data_closed w;
     canceled := canceled w; tasks := tasks w |}.

Definition set_step_logs (l : list StepLog) (w : World) : World :=
  {| executor := executor w; errors := errors w; status_chans := status_chans w;
     step_logs := l; data_closed := data_closed w;
     canceled := canceled w; tasks := tasks w |}.

Definition set_data_closed (d : list bool) (w : World) : World :=
  {| executor := executor w; errors := errors w; status_chans := status_chans w;
     step_logs := step_logs w; data_closed := d;
     canceled := canceled w; tasks := tasks w |}.

Definition cancel (c : nat) (w : World) : World :=
  {| executor := executor w; errors := errors w; status_chans := status_chans w;
     step_logs := step_logs w; data_closed := data_closed w;
     canceled := {[c]} ∪ canceled w; tasks := tasks w |}.

(** The log of a drone step is done when its context ends. *)
Definition end_log (log : option nat) (w : World) : World :=
  set_step_logs
    match log with
    | Some l => alter finish_log l (step_logs w)
    | None => step_logs w
    end w.

(** One atomic step.  [None]: the action is not enabled (no such task, or
    the task is blocked). *)
Definition step (w : World) (a : action) : option (World * event) :=
  match a with
  | CallStartStep r =>
      let '(err, launched, e) := StartStep r (executor w) in
      let w := set_executor e w in
      Some (if launched then spawn (GoStart r) w else w,
            StartReturned (ID r) err launched)
  | CallPollStep ctx id =>
      let ch := length (status_chans w) in
      match PollStep id ch (executor w) with
      | (PollFail err, _) => Some (w, PollReturned id empty_response (Some err))
      | (PollConvert s, _) =>
          let '(resp, h) := convertStatus s (errors w) in
          Some (set_errors h w, PollReturned id resp None)
      | (PollWait, e) =>
          Some (spawn (PollWaiting ctx ch)
                  (set_executor e (set_status_chans (status_chans w ++ [[]]) w)),
                PollBlocked id (length (tasks w)))
      end
  | CallStreamOutput ctx id offset =>
      if decide (id = "") then
        Some (w, StreamFailed (BadRequestError "ID needs to be set"))
      else Some (spawn (StreamLooking ctx id offset) w, Silent)
  | Cancel c => Some (cancel c w, Silent)
  | EnterRun t =>
      match tasks w !! t with
      | Some (GoStart r) =>
          if LogDrone r then
            let l := length (step_logs w) in
            let w := set_step_logs (step_logs w ++ [NewStepLog]) w in
            let w := set_executor (executeStepDrone_register (ID r) l (executor w)) w in
            Some (set_task t (GoRun r (Some l)) w, Silent)
          else Some (set_task t (GoRun r None) w, Silent)
      | _ => None
      end
  | ReturnRun t env =>
      match tasks w !! t with
      | Some (GoRun r log) =>
          let '(res, h) := executeStep r env (errors w) in
          let status := complete_status res in
          let '(channels, e) := store_complete (ID r) status (executor w) in
          let w := set_executor e (set_errors h w) in
          let w := set_task t (GoDeliver (ID r) status channels) w in
          Some (if Detach r then spawn (GoDaemon log) w else end_log log w, Silent)
      | _ => None
      end
  | Send t =>
      match tasks w !! t with
      | Some (GoDeliver id status (ch :: rest)) =>
          match status_chans w !! ch with
          | Some [] =>
              Some (set_task t (GoDeliver id status rest)
                      (set_status_chans (<[ch := [status]]> (status_chans w)) w),
                    Silent)
          | _ => None
          end
      | _ => None
      end
  | DaemonExit t =>
      match tasks w !! t with
      | Some (GoDaemon log) => Some (set_task t Returned (end_log log w), Silent)
      | _ => None
      end
  | Receive t =>
      match tasks w !! t with
      | Some (PollWaiting ctx ch) =>
          match status_chans w !! ch with
          | Some (status :: rest) =>
              let '(resp, h) := convertStatus status (errors w) in
              Some (set_task t Returned
                      (set_errors h (set_status_chans (<[ch := rest]> (status_chans w)) w)),
                    PollDelivered t resp)
          | _ => None
          end
      | _ => None
      end
  | StreamLookup t elapsed sub =>
      match tasks w !! t with
      | Some (StreamLooking ctx id offset) =>
          match stepLog (executor w) !! id with
          | Some l =>
              match step_logs w !! l with
              | Some log =>
                  let chData := length (data_closed w) in
                  let '(oldOut, err, log) := Subscribe chData offset sub log in
                  let w := set_data_closed (data_closed w ++ [false]) w in
                  let w := set_step_logs (<[l := log]> (step_logs w)) w in
                  if is_nil err then
                    Some (spawn (Watcher ctx chData l) (set_task t Returned w),
                          StreamReturned oldOut chData)
                  else Some (set_task t Returned w, StreamAborted oldOut err)
              | None => None
              end
          | None =>
              if timeoutDelay <=? elapsed then
                Some (set_task t Returned w,
                      StreamFailed (BadRequestError "Step has not started"))
              else Some (set_task t (StreamSleeping ctx id offset) w, Silent)
          end
      | _ => None
      end
  | StreamWake t wake =>
      match tasks w !! t with
      | Some (StreamSleeping ctx id offset) =>
          match wake with
          | TimerFired => Some (set_task t (StreamLooking ctx id offset) w, Silent)
          | CtxDone deadline =>
              if decide (ctx ∈ canceled w) then
                Some (set_task t Returned w,
                      StreamFailed (ContextError (done_Err deadline)))
              else None
          end
      | _ => None
      end
  | Watch t =>
      match tasks w !! t with
      | Some (Watcher ctx chData l) =>
          if bool_decide (ctx ∈ canceled w) || default false (log_done <$> step_logs w !! l) then
            let w := set_data_closed (<[chData := true]> (data_closed w)) w in
            let w := set_step_logs (alter (Unsubscribe chData) l (step_logs w)) w in
            Some (set_task t Returned w, Silent)
          else None
      | _ => None
      end
  end.

(** A schedule, from left to right, with the events it produces. *)
Fixpoint run_trace (w : World) (tr : list action) : option (World * list event) :=
  match tr with
  | [] => Some (w, [])
  | a :: tr =>
      match step w a with
      | Some (w', ev) =>
          match run_trace w' tr with
          | Some (w'', evs) => Some (w'', ev :: evs)
          | None => None
          end
      | None => None
      end
  end.

Definition reachable (w : World) : Prop :=
  exists tr evs, run_trace initial tr = Some (w, evs).

(** The number of goroutines that the calls of [StartStep] recorded in
    [evs] have launched for the identifier [id]. *)
Fixpoint launches (id : string) (evs : list event) : nat :=
  match evs with
  | [] => 0
  | StartReturned id' _ true :: evs =>
      ((if decide (id' = id) then 1 else 0) + launches id evs)%nat
  | _ :: evs => launches id evs
  end.

(** ** What holds in every reachable world *)

(** The channels registered for [id]: [e.stepWaitCh[id]]. *)
Definition waiters (w : World) (id : string) : list nat :=
  default [] (stepWaitCh (executor w) !! id).

(** Goroutine [t] is about to run, or is running, the request [r]. *)
Definition runs (w : World) (t : nat) (r : StartStepRequest) : Prop :=
  tasks w !! t = Some (GoStart r) \/ exists log, tasks w !! t = Some (GoRun r log).

Definition status_is (w : World) (id : string) (x : ExecutionStatus) : Prop :=
  exists s, stepStatus (executor w) !! id = Some s /\ Status s = x.

(** The tasks that touch the status table or the status channels. *)
Definition core (k : task) : Prop :=
  match k with
  | GoStart _ | GoRun _ _ | GoDeliver _ _ _ | PollWaiting _ _ => True
  | _ => False
  end.

Definition same_core (l l' : list task) : Prop :=
  forall t k, core k -> (l' !! t = Some k <-> l !! t = Some k).

Record consistent (w : World) : Prop := mkConsistent {
  waiters_allocated :
    forall id ch, ch ∈ waiters w id -> (ch < length (status_chans w))%nat;
  waiters_nodup : forall id, NoDup (waiters w id);
  waiters_disjoint :
    forall id1 id2 ch, ch ∈ waiters w id1 -> ch ∈ waiters w id2 -> id1 = id2;
  waiters_started :
    forall id ch, ch ∈ waiters w id -> is_Some (stepStatus (executor w) !! id);
  deliver_complete :
    forall t id st chs, tasks w !! t = Some (GoDeliver id st chs) ->
      status_is w id Complete /\ (forall ch, ch ∈ chs -> ch ∈ waiters w id);
  waiting_empty :
    forall id ch, status_is w id Running -> ch ∈ waiters w id ->
      status_chans w !! ch = Some [];
  runs_running : forall t r, runs w t r -> status_is w (ID r) Running;
  runs_unique :
    forall t1 t2 r1 r2, runs w t1 r1 -> runs w t2 r2 -> ID r1 = ID r2 -> t1 = t2
}.

(** The identifier [id] has a log buffer in the registry. *)
Definition log_registered (w : World) (id : string) : Prop :=
  exists l log, stepLog (executor w) !! id = Some l /\ step_logs w !! l = Some log.

(** The log registry holds entries for started steps only, and none for a
    step whose goroutine is still to enter its run. *)
Record log_sound (w : World) : Prop := mkLogSound {
  logged_started :
    forall id, is_Some (stepLog (executor w) !! id) ->
      is_Some (stepStatus (executor w) !! id);
  starting_unlogged :
    forall t r, tasks w !! t = Some (GoStart r) -> stepLog (executor w) !! ID r = None
}.

(** The step [id] has been started and has no log buffer, and no goroutine
    that is still to enter its run would register one for it. *)
Record unlogged (w : World) (id : string) : Prop := mkUnlogged {
  unlogged_none : stepLog (executor w) !! id = None;
  unlogged_started : is_Some (stepStatus (executor w) !! id);
  unlogged_primary :
    forall t r, tasks w !! t = Some (GoStart r) -> ID r = id -> LogDrone r = false
}.

(** The actions that are not the entry of a goroutine into its run. *)
Definition enters_run (a : action) : bool :=
  match a with
  | EnterRun _ => true
  | _ => false
  end.

(** The actions whose outcome depends on the contexts of the callers. *)
Definition observes_ctx (a : action) : bool :=
  match a with
  | Watch _ | StreamWake _ _ => true
  | _ => false
  end.

(** The same outcome in a world where context [c] is canceled as well. *)
Definition and_canceled (c : nat) (o : option (World * event)) : option (World * event) :=
  match o with
  | Some (w, ev) => Some (cancel c w, ev)
  | None => None
  end.

(** The [PollStep] call [t] waits on the empty channel [ch], which neither
    the registry nor a delivering goroutine knows any more. *)
Record starved (w : World) (t ctx ch : nat) : Prop := mkStarved {
  starved_waiting : tasks w !! t = Some (PollWaiting ctx ch);
  starved_empty : status_chans w !! ch = Some [];
  starved_unregistered : forall id, ch ∉ waiters w id;
  starved_unknown :
    forall t' id st chs, tasks w !! t' = Some (GoDeliver id st chs) -> ch ∉ chs
}.

(** What one step does to the status table, the wait channels, the status
    channels and the core tasks. *)
Inductive effect (w w' : World) : Prop :=
  | effect_frame :
      stepStatus (executor w') = stepStatus (executor w) ->
      stepWaitCh (executor w') = stepWaitCh (executor w) ->
      status_chans w' = status_chans w ->
      same_core (tasks w) (tasks w') ->
      effect w w'
  | effect_start (r : StartStepRequest) :
      stepStatus (executor w) !! ID r = None ->
      stepStatus (executor w') = <[ID r := running_status]> (stepStatus (executor w)) ->
      stepWaitCh (executor w') = stepWaitCh (executor w) ->
      status_chans w' = status_chans w ->
      tasks w' = tasks w ++ [GoStart r] ->
      effect w w'
  | effect_register (id : string) (s : StepStatus) (ctx : nat) :
      stepStatus (executor w) !! id = Some s ->
      Status s <> Complete ->
      stepStatus (executor w') = stepStatus (executor w) ->
      stepWaitCh (executor w') = <[id := [length (status_chans w)]]> (stepWaitCh (executor w)) ->
      status_chans w' = status_chans w ++ [[]] ->
      tasks w' = tasks w ++ [PollWaiting ctx (length (status_chans w))] ->
      effect w w'
  | effect_enter (t : nat) (r : StartStepRequest) (log : option nat) :
      tasks w !! t = Some (GoStart r) ->
      stepStatus (executor w') = stepStatus (executor w) ->
      stepWaitCh (executor w') = stepWaitCh (executor w) ->
      status_chans w' = status_chans w ->
      tasks w' = <[t := GoRun r log]> (tasks w) ->
      effect w w'
  | effect_return (t : nat) (r : StartStepRequest) (log : option nat) (st : StepStatus) :
      tasks w !! t = Some (GoRun r log) ->
      Status st = Complete ->
      stepStatus (executor w') = <[ID r := st]> (stepStatus (executor w)) ->
      stepWaitCh (executor w') = stepWaitCh (executor w) ->
      status_chans w' = status_chans w ->
      same_core (<[t := GoDeliver (ID r) st (waiters w (ID r))]> (tasks w)) (tasks w') ->
      effect w w'
  | effect_send (t : nat) (id : string) (st : StepStatus) (ch : nat) (rest : list nat) :
      tasks w !! t = Some (GoDeliver id st (ch :: rest)) ->
      status_chans w !! ch = Some [] ->
      stepStatus (executor w') = stepStatus (executor w) ->
      stepWaitCh (executor w') = stepWaitCh (executor w) ->
      status_chans w' = <[ch := [st]]> (status_chans w) ->
      tasks w' = <[t := GoDeliver id st rest]> (tasks w) ->
      effect w w'
  | effect_receive (t ctx ch : nat) (st : StepStatus) (rest : list StepStatus) :
      tasks w !! t = Some (PollWaiting ctx ch) ->
      status_chans w !! ch = Some (st :: rest) ->
      stepStatus (executor w') = stepStatus (executor w) ->
      stepWaitCh (executor w') = stepWaitCh (executor w) ->
      status_chans w' = <[ch := rest]> (status_chans w) ->
      tasks w' = <[t := Returned]> (tasks w) ->
      effect w w'.

(** ** Sample requests and collaborator answers *)

Module Sample.

Definition request (id : string) (timeout : Z) (detach drone : bool) : StartStepRequest :=
  {| ID := id; Name := "build"; Kind := Run; Timeout := timeout;
     Detach := detach; LogDrone := drone; LogKey := "key" |}.

(** A run that exits with [code], with telemetry at address 7. *)
Definition exits (code : Z) (oom : bool) (err : error) : RunResult :=
  {| res_state := Some {| ExitCode := code; Exited := true; OOMKilled := oom |};
     res_outputs := Some {[ "k" := "v" ]};
     res_artifact := None;
     res_outputV2 := None;
     res_optimizationState := "opt";
     res_telemetry := Some 7%nat;
     res_err := err |}.

Definition engine_with (res : RunResult) : Engine :=
  {| executeRunStep := res; executeRunTestsV2Step := res; executeRunTestStep := res |}.

Definition close_failed : error := ErrPlain (Errorf "close failed").
Definition run_failed : error := ErrPlain (Errorf "engine failed").

(** Exit code 1, and the log writer fails to close. *)
Definition env_exit1_close_failed : StepEnv :=
  {| engine := engine_with (exits 1 false ErrNil); ctx_fate := Alive;
     wc_Close := close_failed; wc_Error := ErrNil |}.

(** The run fails, the writer fails to close, and the deadline has passed. *)
Definition env_deadline : StepEnv :=
  {| engine := engine_with (exits 3 false run_failed); ctx_fate := EndDeadlineExceeded;
     wc_Close := close_failed; wc_Error := close_failed |}.

(** The run fails and the writer fails to close, within the deadline. *)
Definition env_both_failed : StepEnv :=
  {| engine := engine_with (exits 3 false run_failed); ctx_fate := Alive;
     wc_Close := close_failed; wc_Error := close_failed |}.

(** A clean run. *)
Definition env_ok : StepEnv :=
  {| engine := engine_with (exits 0 false ErrNil); ctx_fate := Alive;
     wc_Close := ErrNil; wc_Error := ErrNil |}.

(** A stored status whose process was OOM-killed with exit code 137. *)
Definition oom_status : StepStatus :=
  complete_status (exits 137 true ErrNil).

(** The status stored for a clean run. *)
Definition ok_status : StepStatus := complete_status (exits 0 false ErrNil).

(** Two callers poll a running step; then the step completes and its
    goroutine sends to the channels it has read. *)
Definition two_pollers : list action :=
  [CallStartStep (request "s" 0 false false);
   CallPollStep 0 "s"; CallPollStep 1 "s";
   EnterRun 0; ReturnRun 0 env_ok; Send 0].

(** A step exits with code 1 while the writer fails to close; then it is
    polled twice. *)
Definition poll_twice_after_completion : list action :=
  [CallStartStep (request "s" 0 false false);
   EnterRun 0; ReturnRun 0 env_exit1_close_failed;
   CallPollStep 0 "s"; CallPollStep 0 "s"].

(** One caller polls a running step, the step completes, the caller is
    served. *)
Definition poll_until_complete : list action :=
  [CallStartStep (request "s" 0 false false);
   CallPollStep 0 "s";
   EnterRun 0; ReturnRun 0 env_ok; Send 0; Receive 1].

(** A caller polls a running step and then cancels its context 5. *)
Definition poll_then_cancel : list action :=
  [CallStartStep (request "s" 0 false false);
   EnterRun 0; CallPollStep 5 "s"; Cancel 5].

(** A step of the primary path is started and runs; a caller asks for its
    output and looks the log up at once and again after five seconds. *)
Definition stream_primary_step : list action :=
  [CallStartStep (request "s" 0 false false);
   EnterRun 0;
   CallStreamOutput 0 "s" 0;
   StreamLookup 1 0 ErrNil; StreamWake 1 TimerFired; StreamLookup 1 5000 ErrNil].

(** The same with the drone flag set. *)
Definition stream_drone_step : list action :=
  [CallStartStep (request "s" 0 false true);
   EnterRun 0;
   CallStreamOutput 0 "s" 0;
   StreamLookup 1 0 ErrNil].

(** The world a schedule leads to from the initial one. *)
Definition world_after (tr : list action) : World :=
  match run_trace initial tr with
  | Some (w, _) => w
  | None => initial
  end.

(** A step is polled by one caller and has entered its run. *)
Definition polled_running : list action :=
  [CallStartStep (request "s" 0 false false); CallPollStep 0 "s"; EnterRun 0].

(** A step of the drone path has been started. *)
Definition drone_started : list action :=
  [CallStartStep (request "s" 0 false true)].

(** A step "s" of the primary path and a step "d" of the drone path have
    been started. *)
Definition primary_started : list action :=
  [CallStartStep (request "s" 0 false false);
   CallStartStep (request "d" 0 false true)].

End Sample.

(** ** Further notions for the interleaving *)

(** [err] is a [*multierror.Error]. *)
Definition is_multi (e : error) : bool :=
  match e with ErrMulti _ => true | _ => false end.

(** The goroutines in their sending loop: one per identifier at most, and
    the channels a loop has still to send on are distinct and empty. *)
Record delivering (w : World) : Prop := mkDelivering {
  deliver_unique :
    forall t1 t2 id st1 chs1 st2 chs2,
      tasks w !! t1 = Some (GoDeliver id st1 chs1) ->
      tasks w !! t2 = Some (GoDeliver id st2 chs2) -> t1 = t2;
  deliver_pending :
    forall t id st chs, tasks w !! t = Some (GoDeliver id st chs) ->
      NoDup chs /\ forall ch, ch ∈ chs -> status_chans w !! ch = Some []
}.


(** The message of the error [PollStep] returns without a status entry. *)
Definition poll_refusal (id : string) : string :=
  if decide (id = "") then "ID needs to be set" else "Step has not started".

(** More collaborator answers. *)
Module Sample2.

(** Exit code 2 with a clean close, while the writer holds an error. *)
Definition env_exit2_writer_error : StepEnv :=
  {| engine := Sample.engine_with (Sample.exits 2 false ErrNil); ctx_fate := Alive;
     wc_Close := ErrNil; wc_Error := Sample.close_failed |}.

(** Exit code 2, nothing else fails. *)
Definition env_exit2 : StepEnv :=
  {| engine := Sample.engine_with (Sample.exits 2 false ErrNil); ctx_fate := Alive;
     wc_Close := ErrNil; wc_Error := ErrNil |}.

(** The run itself fails, on a step that exits with code 3. *)
Definition env_run_failed : StepEnv :=
  {| engine := Sample.engine_with (Sample.exits 3 false Sample.run_failed);
     ctx_fate := Alive; wc_Close := ErrNil; wc_Error := ErrNil |}.

(** A step is started, polled, and its run has returned. *)
Definition polled_returned : list action :=
  [CallStartStep (Sample.request "s" 0 false false); CallPollStep 0 "s";
   EnterRun 0; ReturnRun 0 Sample.env_ok].

(** A step is started and has completed. *)
Definition completed : list action :=
  [CallStartStep (Sample.request "s" 0 false false); EnterRun 0;
   ReturnRun 0 Sample.env_ok].

(** The world a schedule leads to from [w]. *)
Definition run_from (w : World) (tr : list action) : World :=
  match run_trace w tr with
  | Some (w', _) => w'
  | None => w
  end.

(** Calls that arrive after the completion of "s". *)
Definition late_calls : list action :=
  [CallStartStep (Sample.request "s" 5 true true); CallPollStep 0 "s"].

(** A second poll, the delivery, and a third poll. *)
Definition polls_around_delivery : list action :=
  [CallPollStep 1 "s"; Send 0; CallPollStep 2 "s"].


End Sample2.

(** ** The server command *)

(** A shallow embedding of [cli/server/server.go]: the writer
    [OutputSplitter] and the control flow of [serverCommand.run]. *)
Module Server.

(** The standard streams of the process.  [os.Stdout] and [os.Stderr] are
    files of package [os]: of each the record keeps the bytes handed to its
    [Write] so far, and what its [Write] answers to a payload that comes
    after those, the count and the error, which are the file's own (a
    short count and an error when the file does not take the payload). *)
Record Console := mkConsole {
  Stdout : list Byte.byte;
  Stderr : list Byte.byte;
  Stdout_Write : list Byte.byte -> list Byte.byte -> Z * error;
  Stderr_Write : list Byte.byte -> list Byte.byte -> Z * error
}.

(** [[]byte("level=error")]. *)
Definition level_error : list Byte.byte := list_byte_of_string "level=error".

(** [bytes.HasPrefix(s, prefix)]. *)
Fixpoint HasPrefix (s prefix : list Byte.byte) : bool :=
  match prefix, s with
  | [], _ => true
  | _ :: _, [] => false
  | b :: prefix', a :: s' => Byte.eqb a b && HasPrefix s' prefix'
  end.

(** [bytes.Contains(b, subslice)]: [subslice] occurs at some offset. *)
Fixpoint bytes_Contains (b subslice : list Byte.byte) : bool :=
  HasPrefix b subslice ||
  match b with
  | [] => false
  | _ :: b' => bytes_Contains b' subslice
  end.

(** [OutputSplitter.Write]: the count and the error returned, which are
    those of [os.Stderr.Write(p)] or of [os.Stdout.Write(p)], and the
    console afterwards. *)
Definition OutputSplitter_Write (p : list Byte.byte) (c : Console)
  : Z * error * Console :=
  if bytes_Contains p level_error then
    (Stderr_Write c (Stderr c) p,
     {| Stdout := Stdout c; Stderr := Stderr c ++ p;
        Stdout_Write := Stdout_Write c; Stderr_Write := Stderr_Write c |})
  else
    (Stdout_Write c (Stdout c) p,
     {| Stdout := Stdout c ++ p; Stderr := Stderr c;
        Stdout_Write := Stdout_Write c; Stderr_Write := Stderr_Write c |}).

(** The logger writes its entries one after the other. *)
Definition write_entries (ps : list (list Byte.byte)) (c : Console) : Console :=
  foldl (fun c p => (OutputSplitter_Write p c).2) c ps.

(** [config.Config] is declared outside the sources at hand; these are the
    fields that [server.go] reads, with [Server.Bind] and
    [Server.SkipPrepareServer] flattened. *)
Record Config := mkConfig {
  Debug : bool;
  Trace : bool;
  Bind : string;
  SkipPrepareServer : bool
}.

(** What [serverCommand.run] calls, in order. *)
Inductive call :=
  | godotenv_Load (envfile : string)
  | config_Load
  | initLogging (c : Config)
  | engine_NewEnv
  | NewStepExecutor_call
  | signal_Notify
  | setup_PrepareSystem (c : Config)
  | serverInstance_Start (addr : string)
  | signal_Stop
  | cancel_call.

(** What the collaborators of [serverCommand.run] answer.  The error of
    [godotenv.Load] is only logged and is left out. *)
Record RunEnv := mkRunEnv {
  loadedConfig : Config;
  config_err : error;
  engine_err : error;
  start_err : error
}.

(** [serverCommand.run]: the error returned and the calls made.  The two
    deferred calls come last. *)
Definition run (envfile : string) (env : RunEnv) : error * list call :=
  let calls := if decide (envfile = "") then [] else [godotenv_Load envfile] in
  let calls := calls ++ [config_Load] in
  if negb (is_nil (config_err env)) then (config_err env, calls)
  else
    let calls := calls ++ [initLogging (loadedConfig env); engine_NewEnv] in
    if negb (is_nil (engine_err env)) then (engine_err env, calls)
    else
      let calls := calls ++ [NewStepExecutor_call; signal_Notify] in
      let calls :=
        calls ++ (if SkipPrepareServer (loadedConfig env) then []
                  else [setup_PrepareSystem (loadedConfig env)]) in
      let calls := calls ++ [serverInstance_Start (Bind (loadedConfig env))] in
      let err := start_err env in
      let calls := calls ++ [signal_Stop; cancel_call] in
      match err with
      | ErrPlain Canceled => (ErrNil, calls)
      | _ => (err, calls)
      end.

(** A line of the logger at error level, and one at info level. *)
Definition error_line : list Byte.byte :=
  list_byte_of_string "time=now level=error msg=failed".
Definition info_line : list Byte.byte :=
  list_byte_of_string "time=now level=info msg=listening".

(** A console to which nothing has been written, whose standard output
    takes every payload and whose standard error has been closed. *)
Definition closed_stderr : Console :=
  {| Stdout := []; Stderr := [];
     Stdout_Write := fun _ p => (Z.of_nat (length p), ErrNil);
     Stderr_Write := fun _ _ =>
       (0, ErrPlain (Errorf "write /dev/stderr: file already closed")) |}.

(** The server is interrupted after a normal start. *)
Definition env_interrupted : RunEnv :=
  {| loadedConfig := {| Debug := false; Trace := false; Bind := ":3000";
                        SkipPrepareServer := false |};
     config_err := ErrNil; engine_err := ErrNil;
     start_err := ErrPlain Canceled |}.

End Server.

(** * Properties *)

(** ** [multierror.Append] *)

Section AppendFacts.

Implicit Types (h : heap) (e : error) (p : nat).

Lemma Errors_app_new h cell : Errors (h ++ [cell]) (length h) = cell.
Proof.
  unfold Errors. rewrite lookup_app_r by lia.
  by replace (length h - length h)%nat with 0%nat by lia.
Qed.

Lemma Errors_app_old h cell p : (p < length h)%nat -> Errors (h ++ [cell]) p = Errors h p.
Proof. intros Hp. unfold Errors. by rewrite lookup_app_l. Qed.

Lemma Errors_insert_eq h cell p : (p < length h)%nat -> Errors (<[p := cell]> h) p = cell.
Proof. intros Hp. unfold Errors. by rewrite list_lookup_insert_eq. Qed.

Lemma causes_app_old h cell e : valid h e -> causes (h ++ [cell]) e = causes h e.
Proof. destruct e; simpl; auto using Errors_app_old. Qed.

Lemma valid_app h cell e : valid h e -> valid (h ++ [cell]) e.
Proof. destruct e; simpl; auto. rewrite length_app. lia. Qed.

Lemma valid_insert h cell p e : valid h e -> valid (<[p := cell]> h) e.
Proof. destruct e; simpl; auto. by rewrite length_insert. Qed.

Lemma append_one_length p h e : length (append_one p h e) = length h.
Proof. unfold append_one. destruct e; by rewrite ?length_insert. Qed.

(** [Append] allocates one object unless its first argument is one. *)
Lemma AppendTo_length h err e :
  length (AppendTo err e h).2 =
    match err with ErrMulti _ => length h | _ => S (length h) end.
Proof.
  unfold AppendTo, Append.
  destruct err; simpl; rewrite ?append_one_length, ?length_insert, ?length_app; simpl; lia.
Qed.

(** Appending to nil allocates an object that holds the causes of [e]. *)
Lemma AppendTo_nil h e :
  valid h e ->
  AppendTo ErrNil e h =
    (ErrMulti (length h),
     if is_nil e then h ++ [[]] else <[length h := causes h e]> (h ++ [[]])).
Proof.
  intros Hv. unfold AppendTo, Append. simpl. unfold append_one.
  destruct e as [|c|q]; simpl; try done.
  - by rewrite Errors_app_new.
  - simpl in Hv. by rewrite Errors_app_new, Errors_app_old.
Qed.

(** Appending to a [*Error] extends that object where it is. *)
Lemma AppendTo_multi h p e :
 AppendTo (ErrMulti p) e h =
    (ErrMulti p, if is_nil e then h else <[p := Errors h p ++ causes h e]> h).
Proof. unfold AppendTo, Append. simpl. unfold append_one. by destruct e. Qed.

(** Appending to a plain error allocates an object for both. *)
Lemma AppendTo_plain h c e :
  valid h e ->
  Errors (AppendTo (ErrPlain c) e h).2 (length h) = c :: causes h e /\
  (AppendTo (ErrPlain c) e h).1 = ErrMulti (length h).
Proof.
  intros Hv. unfold AppendTo, Append. simpl.
  assert (Hl : (length h < length (h ++ [[]]))%nat) by (rewrite length_app; simpl; lia).
  rewrite Errors_app_new. simpl. split; [|done].
  unfold append_one. destruct e as [|c'|q]; simpl.
  - by rewrite Errors_insert_eq.
  - rewrite Errors_insert_eq by (by rewrite length_insert).
    by rewrite Errors_insert_eq.
  - simpl in Hv. rewrite Errors_insert_eq by (by rewrite length_insert).
    rewrite Errors_insert_eq by done.
    unfold Errors at 1. rewrite list_lookup_insert_ne by lia.
    by rewrite lookup_app_l.
Qed.

(** In every case the object returned holds the old causes, then the new. *)
Lemma AppendTo_causes h err e :
  valid h err -> valid h e ->
  exists p, (AppendTo err e h).1 = ErrMulti p /\
    (p < length (AppendTo err e h).2)%nat /\
    Errors (AppendTo err e h).2 p = causes h err ++ causes h e.
Proof.
  intros Herr He. destruct err as [|c|p].
  - rewrite AppendTo_nil by done. exists (length h). simpl. split; [done|].
    destruct e as [|c'|q]; simpl.
    + rewrite length_app; simpl. split; [lia|]. by rewrite Errors_app_new.
    + rewrite length_insert, length_app; simpl. split; [lia|].
      rewrite Errors_insert_eq; [done|]. rewrite length_app; simpl; lia.
    + rewrite length_insert, length_app; simpl. split; [lia|].
      rewrite Errors_insert_eq; [done|]. rewrite length_app; simpl; lia.
  - exists (length h). destruct (AppendTo_plain h c e He) as [H1 H2].
    split; [done|]. split; [|by rewrite H1].
    rewrite AppendTo_length. simpl. lia.
  - simpl in Herr. rewrite AppendTo_multi. exists p. simpl. split; [done|].
    destruct e as [|c'|q]; simpl.
    + split; [done|]. by rewrite app_nil_r.
    + rewrite length_insert. split; [done|]. by rewrite Errors_insert_eq.
    + rewrite length_insert. split; [done|]. by rewrite Errors_insert_eq.
Qed.

End AppendFacts.

(** ** [executeStep] *)

Ltac unfold_M := unfold mbind, M_bind, mret, M_ret in *.

(** C3: on the primary path (no drone flag, not detached), when the context
    of the run has ended as Canceled or DeadlineExceeded, the error
    [executeStep] returns, which becomes the error of the stored status, is
    exactly [ctx.Err()], whatever the run, the closing of the writer and
    the process state have produced. *)
Theorem executeStep_context_error_first (r : StartStepRequest) (env : StepEnv) (h : heap)
    (c : plain_error) :
  LogDrone r = false ->
  Detach r = false ->
  ctx_Err (step_ctx r env) = ErrPlain c ->
  (c = Canceled \/ c = DeadlineExceeded) /\
  res_err (executeStep r env h).1 = ctx_Err (step_ctx r env) /\
  StepErr (complete_status (executeStep r env h).1) = ctx_Err (step_ctx r env).
Proof.
  intros Hdrone Hdetach Hctx.
  assert (Hc : c = Canceled \/ c = DeadlineExceeded).
  { unfold ctx_Err in Hctx.
    destruct (step_ctx r env) as [| |[]]; try discriminate; injection Hctx as <-; auto. }
  assert (Hres : res_err (executeStep r env h).1 = ctx_Err (step_ctx r env)).
  { unfold executeStep. rewrite Hdrone, Hdetach. unfold_M.
    destruct (if negb (is_nil (res_err (run (engine env) r))) then _ else _) as [r1 h1].
    destruct (if negb (is_nil (wc_Close env)) then _ else _) as [r2 h2].
    rewrite Hctx. by destruct Hc as [-> | ->]. }
  split; [done|]. split; [done|]. exact Hres.
Qed.

Lemma executeStep_context_error_first_witness :
  res_err (executeStep (Sample.request "s" 1 false false) Sample.env_deadline []).1
    = ErrPlain DeadlineExceeded.
Proof.
  exact (proj1 (proj2 (executeStep_context_error_first
                  (Sample.request "s" 1 false false) Sample.env_deadline []
                  DeadlineExceeded eq_refl eq_refl eq_refl))).
Defined.

(** A heap [g] extends [h] when the objects of [h] are unchanged in it. *)
Lemma causes_extends (h g : heap) (e : error) :
  valid h e ->
  (forall q, (q < length h)%nat -> g !! q = h !! q) ->
  causes g e = causes h e.
Proof.
  intros Hv Hext. destruct e as [|c|q]; simpl; try done.
  simpl in Hv. unfold Errors. by rewrite Hext.
Qed.

Lemma extends_fresh_insert (h g : heap) (cell : list plain_error) :
  (forall q, (q < length h)%nat -> g !! q = h !! q) ->
  forall q, (q < length h)%nat -> <[length h := cell]> g !! q = h !! q.
Proof. intros Hext q Hq. rewrite list_lookup_insert_ne by lia. by apply Hext. Qed.

Lemma extends_app (h : heap) (cell : list plain_error) :
  forall q, (q < length h)%nat -> (h ++ [cell]) !! q = h !! q.
Proof. intros q Hq. by rewrite lookup_app_l. Qed.

(** C4: on the primary path, within the deadline, when both the run and the
    closing of the writer fail, the error [executeStep] returns is one
    [*multierror.Error] whose causes are those of the run error followed by
    those of the close error (and the close error once more when the exit
    code is nonzero and the writer holds an error). *)
Theorem executeStep_keeps_run_and_close_errors (r : StartStepRequest) (env : StepEnv)
    (h : heap) :
  LogDrone r = false ->
  Detach r = false ->
  ctx_Err (step_ctx r env) = ErrNil ->
  res_err (run (engine env) r) <> ErrNil ->
  wc_Close env <> ErrNil ->
  valid h (res_err (run (engine env) r)) ->
  valid h (wc_Close env) ->
  exists p extra,
    res_err (executeStep r env h).1 = ErrMulti p /\
    Errors (executeStep r env h).2 p =
      causes h (res_err (run (engine env) r)) ++ causes h (wc_Close env) ++ extra /\
    (extra = [] \/ extra = causes h (wc_Close env)).
Proof.
  intros Hdrone Hdetach Hctx Hrun Hclose Hvr Hvc.
  unfold executeStep. rewrite Hdrone, Hdetach, Hctx. unfold_M.
  set (re := res_err (run (engine env) r)) in *.
  set (ce := wc_Close env) in *.
  assert (Hre : is_nil re = false) by (by destruct re).
  assert (Hce : is_nil ce = false) by (by destruct ce).
  rewrite Hre, Hce. cbn [negb].
  rewrite AppendTo_nil by done. rewrite Hre.
  set (n := length h).
  set (h1 := <[n := causes h re]> (h ++ [[]])).
  assert (Hn1 : (n < length h1)%nat).
  { unfold h1. rewrite length_insert, length_app. simpl. lia. }
  assert (Hext1 : forall q, (q < length h)%nat -> h1 !! q = h !! q).
  { unfold h1. apply extends_fresh_insert, extends_app. }
  assert (He1 : Errors h1 n = causes h re).
  { unfold h1. rewrite Errors_insert_eq; [done|]. rewrite length_app. simpl. lia. }
  rewrite AppendTo_multi, Hce.
  set (h2 := <[n := Errors h1 n ++ causes h1 ce]> h1).
  assert (Hn2 : (n < length h2)%nat) by (unfold h2; by rewrite length_insert).
  assert (Hext2 : forall q, (q < length h)%nat -> h2 !! q = h !! q).
  { intros q Hq. unfold h2. rewrite list_lookup_insert_ne by (unfold n; lia). by apply Hext1. }
  assert (He2 : Errors h2 n = causes h re ++ causes h ce).
  { unfold h2. rewrite Errors_insert_eq by done.
    by rewrite He1, (causes_extends h h1 ce). }
  simpl.
  destruct (res_state (run (engine env) r)) as [exited|]; simpl.
  - destruct (negb (ExitCode exited =? 0) && negb (is_nil (wc_Error env))).
    + rewrite AppendTo_multi, Hce. simpl. exists n, (causes h ce).
      split; [done|]. split; [|by right].
      rewrite Errors_insert_eq by done.
      by rewrite He2, (causes_extends h h2 ce), <- app_assoc.
    + simpl. exists n, []. split; [done|]. split; [|by left].
      by rewrite He2, app_nil_r.
  - exists n, []. split; [done|]. split; [|by left].
    by rewrite He2, app_nil_r.
Qed.

Lemma executeStep_keeps_run_and_close_errors_witness :
  exists p extra,
    res_err (executeStep (Sample.request "s" 0 false false) Sample.env_both_failed []).1
      = ErrMulti p /\
    Errors (executeStep (Sample.request "s" 0 false false) Sample.env_both_failed []).2 p
      = [Errorf "engine failed"] ++ [Errorf "close failed"] ++ extra /\
    (extra = [] \/ extra = [Errorf "close failed"]).
Proof.
  apply (executeStep_keeps_run_and_close_errors
           (Sample.request "s" 0 false false) Sample.env_both_failed []);
    simpl; done.
Defined.

(** ** [convertStatus] *)

(** The process state of [Sample.oom_status] is OOM-killed with exit code
    137, and the error text of its response mentions the OOM kill only. *)
Lemma convertStatus_oom_hides_exit_status :
  StepState Sample.oom_status
    = Some {| ExitCode := 137; Exited := true; OOMKilled := true |} /\
  rError (convertStatus Sample.oom_status []).1 = ListFormatFunc [Errorf "oom killed"] /\
  Contains (rError (convertStatus Sample.oom_status []).1) "oom killed" = true /\
  Contains (rError (convertStatus Sample.oom_status []).1) "exit status 137" = false.
Proof. repeat split; vm_compute; reflexivity. Qed.

(** C9, as the code has it: for a status with a process state, an OOM-killed
    state appends the error "oom killed" to the causes of the step error;
    a state that is not OOM-killed and has a nonzero exit code appends
    "exit status N"; a state that is neither leaves the step error as it
    is.  The error text of the response is the list format of the causes.
    A state that is OOM-killed and has a nonzero exit code falls in the
    first case and contributes the OOM error only. *)
Theorem convertStatus_process_errors (status : StepStatus) (st : State) (h : heap) :
  StepState status = Some st ->
  valid h (StepErr status) ->
  let resp := (convertStatus status h).1 in
  let h' := (convertStatus status h).2 in
  (OOMKilled st = true ->
     exists p, Errors h' p = causes h (StepErr status) ++ [Errorf "oom killed"] /\
               rError resp = ListFormatFunc (Errors h' p)) /\
  (OOMKilled st = false -> ExitCode st <> 0 ->
     exists p, Errors h' p = causes h (StepErr status)
                               ++ [Errorf ("exit status " +:+ pretty (ExitCode st))] /\
               rError resp = ListFormatFunc (Errors h' p)) /\
  (OOMKilled st = false -> ExitCode st = 0 ->
     h' = h /\
     rError resp = if is_nil (StepErr status) then "" else Error_text h (StepErr status)).
Proof.
  intros Hst Hv resp h'. subst resp h'. unfold convertStatus. rewrite Hst.
  unfold_M. split; [|split].
  - intros Hoom. rewrite Hoom.
    destruct (AppendTo_causes h (StepErr status) (ErrPlain (Errorf "oom killed")) Hv I)
      as (p & Hp & _ & Hcell).
    destruct (AppendTo (StepErr status) _ h) as [e1 h1]. simpl in *. subst e1.
    exists p. by split.
  - intros Hoom Hcode. rewrite Hoom.
    assert (Hnz : negb (ExitCode st =? 0) = true) by (apply negb_true_iff; lia).
    rewrite Hnz.
    destruct (AppendTo_causes h (StepErr status)
                (ErrPlain (Errorf ("exit status " +:+ pretty (ExitCode st)))) Hv I)
      as (p & Hp & _ & Hcell).
    destruct (AppendTo (StepErr status) _ h) as [e1 h1]. simpl in *. subst e1.
    exists p. by split.
  - intros Hoom Hcode. rewrite Hoom, Hcode. simpl.
    unfold Error. by destruct (StepErr status).
Qed.

Lemma convertStatus_process_errors_witness :
  exists p,
    Errors (convertStatus Sample.oom_status []).2 p = [] ++ [Errorf "oom killed"] /\
    rError (convertStatus Sample.oom_status []).1
      = ListFormatFunc (Errors (convertStatus Sample.oom_status []).2 p).
Proof.
  exact (proj1 (convertStatus_process_errors Sample.oom_status
                  {| ExitCode := 137; Exited := true; OOMKilled := true |} []
                  eq_refl I) eq_refl).
Defined.

(** C10: on the primary path, when the context of the run has ended, the
    values [executeStep] returns are nil but for the telemetry of the run
    and the context error; the response converted from the status built of
    them says exited, exit code 255, the text of the context error, and
    nothing of the process. *)
Theorem timed_out_step_response (r : StartStepRequest) (env : StepEnv) (h : heap)
    (c : plain_error) :
  LogDrone r = false ->
  Detach r = false ->
  ctx_Err (step_ctx r env) = ErrPlain c ->
  (executeStep r env h).1 =
    {| res_state := None; res_outputs := None; res_artifact := None;
       res_outputV2 := None; res_optimizationState := "";
       res_telemetry := res_telemetry (run (engine env) r);
       res_err := ErrPlain c |} /\
  forall h2,
    (convertStatus (complete_status (executeStep r env h).1) h2).1 =
      {| rExited := true; rExitCode := 255; rError := plain_text c;
         rOOMKilled := false; rOutputs := None; rArtifact := None;
         rOutputV2 := None; rOptimizationState := "";
         rTelemetry := res_telemetry (run (engine env) r) |}.
Proof.
  intros Hdrone Hdetach Hctx.
  assert (Hres : (executeStep r env h).1 =
    {| res_state := None; res_outputs := None; res_artifact := None;
       res_outputV2 := None; res_optimizationState := "";
       res_telemetry := res_telemetry (run (engine env) r);
       res_err := ErrPlain c |}).
  { unfold executeStep. rewrite Hdrone, Hdetach. unfold_M.
    destruct (if negb (is_nil (res_err (run (engine env) r))) then _ else _) as [r1 h1].
    destruct (if negb (is_nil (wc_Close env)) then _ else _) as [r2 h2].
    rewrite Hctx. unfold ctx_Err in Hctx.
    destruct (step_ctx r env) as [| |[]]; try discriminate;
      injection Hctx as <-; reflexivity. }
  split; [exact Hres|]. intros h2. rewrite Hres. reflexivity.
Qed.

Lemma timed_out_step_response_witness :
  (convertStatus
     (complete_status
        (executeStep (Sample.request "s" 1 false false) Sample.env_deadline []).1) []).1 =
    {| rExited := true; rExitCode := 255; rError := "context deadline exceeded";
       rOOMKilled := false; rOutputs := None; rArtifact := None;
       rOutputV2 := None; rOptimizationState := "";
       rTelemetry := Some 7%nat |}.
Proof.
  exact (proj2 (timed_out_step_response (Sample.request "s" 1 false false)
                  Sample.env_deadline [] DeadlineExceeded eq_refl eq_refl eq_refl) []).
Defined.

(** ** The interleaving semantics *)

Ltac unfold_world :=
  unfold end_log, set_task, spawn, set_executor, set_errors, set_status_chans,
    set_step_logs, set_data_closed, cancel in *;
  simpl in *.

(** Case analysis on an enabled step. *)
Ltac step_cases H :=
  match type of H with
  | step ?w ?a = Some _ =>
      unfold step in H; destruct a;
      repeat (case_match; try discriminate); simplify_eq
  end.

(** Unfolding of the sections that run under the lock. *)
Ltac unfold_locked :=
  unfold StartStep, PollStep, store_complete, register_waiter,
    executeStepDrone_register in *;
  repeat (case_match; try discriminate); simplify_eq; simpl in *.

(** A step leaves the status table as it is or stores one entry. *)
Lemma step_stepStatus (w w' : World) (a : action) (ev : event) :
  step w a = Some (w', ev) ->
  stepStatus (executor w') = stepStatus (executor w) \/
  exists id s, stepStatus (executor w') = <[id := s]> (stepStatus (executor w)).
Proof.
  intros H. step_cases H; unfold_locked; unfold_world; eauto.
Qed.

(** ** [StartStep] *)

(** An entry of the status table stays. *)
Lemma step_keeps_entry (w w' : World) (a : action) (ev : event) (id : string) :
  step w a = Some (w', ev) ->
  is_Some (stepStatus (executor w) !! id) ->
  is_Some (stepStatus (executor w') !! id).
Proof.
  intros H Hid. destruct (step_stepStatus _ _ _ _ H) as [->|(id' & s & ->)]; [done|].
  destruct (decide (id' = id)) as [->|Hne].
  - rewrite lookup_insert_eq. eauto.
  - by rewrite lookup_insert_ne.
Qed.

(** With an entry for the identifier, [StartStep] returns nil, launches
    nothing and changes nothing. *)
Lemma StartStep_existing (r : StartStepRequest) (w : World) :
  ID r <> "" ->
  is_Some (stepStatus (executor w) !! ID r) ->
  step w (CallStartStep r) = Some (w, StartReturned (ID r) None false).
Proof.
  intros Hid [s Hs]. unfold step, StartStep.
  destruct (decide (ID r = "")) as [|_]; [done|]. rewrite Hs.
  by destruct w as [[]].
Qed.

(** Only [StartStep] reports a start; a start reported without error has
    left an entry for a non-empty identifier, and a launch found none. *)
Lemma step_start_returned (w w' : World) (a : action) (id : string)
    (err : option api_error) (launched : bool) :
  step w a = Some (w', StartReturned id err launched) ->
  (err = None -> id <> "" /\ is_Some (stepStatus (executor w') !! id)) /\
  (launched = true -> err = None /\ stepStatus (executor w) !! id = None).
Proof.
  intros H. step_cases H; unfold_locked; unfold_world; split; intros; try done;
    (split; [done|]); rewrite ?lookup_insert_eq; eauto.
Qed.

(** Once the entry is there, no schedule launches the step. *)
Lemma run_trace_no_launch (tr : list action) (w w' : World) (evs : list event) (id : string) :
  run_trace w tr = Some (w', evs) ->
  is_Some (stepStatus (executor w) !! id) ->
  launches id evs = 0%nat /\ is_Some (stepStatus (executor w') !! id).
Proof.
  revert w evs. induction tr as [|a tr IH]; intros w evs H Hid; simpl in H.
  - by simplify_eq.
  - destruct (step w a) as [[w1 ev]|] eqn:Hstep; [|done].
    destruct (run_trace w1 tr) as [[w2 evs2]|] eqn:Hrest; [|done]. simplify_eq.
    destruct (IH _ _ Hrest (step_keeps_entry _ _ _ _ _ Hstep Hid)) as [H0 Hid'].
    split; [|done]. simpl.
    destruct ev as [id' err [|]| | | | | | |]; try done.
    destruct (step_start_returned _ _ _ _ _ _ Hstep) as [_ Hl].
    destruct (Hl eq_refl) as [_ Hnone].
    destruct (decide (id' = id)) as [->|]; [|done].
    rewrite Hnone in Hid. by destruct Hid.
Qed.

Lemma run_trace_launches (tr : list action) (w w' : World) (evs : list event) (id : string) :
  run_trace w tr = Some (w', evs) ->
  (launches id evs <= 1)%nat /\
  ((exists launched, StartReturned id None launched ∈ evs) ->
   id <> "" /\ is_Some (stepStatus (executor w') !! id)).
Proof.
  revert w evs. induction tr as [|a tr IH]; intros w evs H; simpl in H.
  - simplify_eq. split; [simpl; lia|]. intros [l Hl]. by apply elem_of_nil in Hl.
  - destruct (step w a) as [[w1 ev]|] eqn:Hstep; [|done].
    destruct (run_trace w1 tr) as [[w2 evs2]|] eqn:Hrest; [|done]. simplify_eq.
    destruct (IH _ _ Hrest) as [Hle Hin].
    assert (Hev : forall launched, ev = StartReturned id None launched ->
                    id <> "" /\ launches id evs2 = 0%nat /\
                    is_Some (stepStatus (executor w') !! id)).
    { intros l ->. destruct (step_start_returned _ _ _ _ _ _ Hstep) as [Hok _].
      destruct (Hok eq_refl) as [Hne Hsome]. split; [done|].
      by apply (run_trace_no_launch tr w1). }
    split.
    + simpl. destruct ev as [id' err [|]| | | | | | |]; try done.
      destruct (decide (id' = id)) as [->|]; [|done].
      destruct (step_start_returned _ _ _ _ _ _ Hstep) as [_ Hl].
      destruct (Hl eq_refl) as [-> _].
      destruct (Hev true eq_refl) as (_ & -> & _). lia.
    + intros [l Hl]. apply elem_of_cons in Hl as [Heq|Hl].
      * destruct (Hev l (eq_sym Heq)) as (? & _ & ?). done.
      * apply Hin. eauto.
Qed.

(** C2: in every schedule, the calls of [StartStep] launch at most one
    goroutine, hence at most one run, for an identifier; and a call that
    comes after a call with the same identifier has returned without error
    finds the entry, returns nil, launches nothing and leaves the executor
    and everything else as it is. *)
Theorem StartStep_at_most_once (tr : list action) (w : World) (evs : list event)
    (r : StartStepRequest) :
  run_trace initial tr = Some (w, evs) ->
  (launches (ID r) evs <= 1)%nat /\
  ((exists launched, StartReturned (ID r) None launched ∈ evs) ->
   step w (CallStartStep r) = Some (w, StartReturned (ID r) None false)).
Proof.
  intros H. destruct (run_trace_launches _ _ _ _ (ID r) H) as [Hle Hin].
  split; [done|]. intros Hprev. destruct (Hin Hprev) as [Hne Hsome].
  by apply StartStep_existing.
Qed.

Lemma StartStep_at_most_once_witness :
  (launches "s"
     [StartReturned "s" None true; StartReturned "s" None false; Silent] <= 1)%nat /\
  exists w,
    run_trace initial
      [CallStartStep (Sample.request "s" 0 false false);
       CallStartStep (Sample.request "s" 9 true true); EnterRun 0]
      = Some (w, [StartReturned "s" None true; StartReturned "s" None false; Silent]) /\
    step w (CallStartStep (Sample.request "s" 0 false false))
      = Some (w, StartReturned "s" None false).
Proof.
  destruct (run_trace initial
              [CallStartStep (Sample.request "s" 0 false false);
               CallStartStep (Sample.request "s" 9 true true); EnterRun 0])
    as [[w evs]|] eqn:Hrun; [|discriminate Hrun].
  assert (Hevs : evs = [StartReturned "s" None true; StartReturned "s" None false; Silent]).
  { vm_compute in Hrun. by injection Hrun as _ <-. }
  subst evs.
  destruct (StartStep_at_most_once _ w _ (Sample.request "s" 0 false false) Hrun)
    as [Hle Hnoop].
  split; [exact Hle|]. exists w. split; [reflexivity|].
  apply Hnoop. exists true. apply elem_of_cons. by left.
Defined.

(** ** The effect of a step *)

Lemma same_core_refl (l : list task) : same_core l l.
Proof. by intros t k _. Qed.

Lemma same_core_snoc (l : list task) (k : task) : ~ core k -> same_core l (l ++ [k]).
Proof.
  intros Hk t k' Hk'. split; intros H.
  - apply lookup_app_Some in H as [H|[Hlen H]]; [done|].
    apply list_lookup_singleton_Some in H as [_ ->]. done.
  - by apply lookup_app_l_Some.
Qed.

Lemma same_core_insert (l : list task) (t : nat) (k0 k : task) :
  l !! t = Some k0 -> ~ core k0 -> ~ core k -> same_core l (<[t := k]> l).
Proof.
  intros Ht Hk0 Hk t' k' Hk'. destruct (decide (t = t')) as [->|Hne].
  - rewrite list_lookup_insert_eq by (by eapply lookup_lt_Some). naive_solver.
  - by rewrite list_lookup_insert_ne.
Qed.

Lemma same_core_trans (l1 l2 l3 : list task) :
  same_core l1 l2 -> same_core l2 l3 -> same_core l1 l3.
Proof. intros H12 H23 t k Hk. by rewrite (H23 t k Hk), (H12 t k Hk). Qed.

Lemma step_effect (w w' : World) (a : action) (ev : event) :
  step w a = Some (w', ev) -> effect w w'.
Proof.
  intros H. step_cases H; unfold_locked; unfold_world.
  all: try (by apply effect_frame; simpl; auto using same_core_refl, same_core_snoc).
  all: try (by apply effect_frame; simpl;
              eauto using same_core_insert, same_core_trans, same_core_snoc).
  all: try (by eapply effect_start; simpl; eauto).
  all: try (by eapply effect_register; simpl; eauto; congruence).
  all: try (by eapply effect_enter; simpl; eauto).
  all: try (by eapply effect_return; simpl; eauto using same_core_refl, same_core_snoc).
  all: try (by eapply effect_send; simpl; eauto).
  all: try (by eapply effect_receive; simpl; eauto).
  apply effect_frame; simpl; auto.
  eapply same_core_trans; [|apply same_core_snoc; simpl; tauto].
  eapply same_core_insert; [done|simpl; tauto..].
Qed.

(** ** Preservation of consistency *)

Section Preservation.

Context (w w' : World).

Lemma waiters_eq :
  stepWaitCh (executor w') = stepWaitCh (executor w) ->
  forall id, waiters w' id = waiters w id.
Proof. intros H id. unfold waiters. by rewrite H. Qed.

Lemma status_is_eq :
  stepStatus (executor w') = stepStatus (executor w) ->
  forall id x, status_is w' id x <-> status_is w id x.
Proof. intros H id x. unfold status_is. by rewrite H. Qed.

Lemma status_is_insert_ne (id0 id : string) (s0 : StepStatus) (x : ExecutionStatus) :
  stepStatus (executor w') = <[id0 := s0]> (stepStatus (executor w)) ->
  id0 <> id ->
  status_is w' id x <-> status_is w id x.
Proof. intros H Hne. unfold status_is. by rewrite H, lookup_insert_ne. Qed.

Lemma status_is_insert_eq (id0 : string) (s0 : StepStatus) (x : ExecutionStatus) :
  stepStatus (executor w') = <[id0 := s0]> (stepStatus (executor w)) ->
  status_is w' id0 x <-> Status s0 = x.
Proof.
  intros H. unfold status_is. rewrite H, lookup_insert_eq. split.
  - by intros (s & [= <-] & Hs).
  - intros Hs. by exists s0.
Qed.

Lemma runs_same_core :
  same_core (tasks w) (tasks w') -> forall t r, runs w' t r <-> runs w t r.
Proof.
  intros H t r. unfold runs.
  rewrite (H t (GoStart r) I).
  split; intros [Ht|[log Ht]]; auto; right; exists log;
    by apply (H t (GoRun r log) I).
Qed.

End Preservation.

Lemma status_is_fun (w : World) (id : string) (x y : ExecutionStatus) :
  status_is w id x -> status_is w id y -> x = y.
Proof. intros (s & Hs & <-) (s' & Hs' & <-). congruence. Qed.

Lemma consistent_frame (w w' : World) :
  consistent w ->
  stepStatus (executor w') = stepStatus (executor w) ->
  stepWaitCh (executor w') = stepWaitCh (executor w) ->
  status_chans w' = status_chans w ->
  same_core (tasks w) (tasks w') ->
  consistent w'.
Proof.
  intros [] Hst Hwait Hch Hcore.
  pose proof (waiters_eq w w' Hwait) as Hw.
  pose proof (status_is_eq w w' Hst) as Hs.
  pose proof (runs_same_core w w' Hcore) as Hr.
  constructor;
    repeat first [setoid_rewrite Hw | setoid_rewrite Hs | setoid_rewrite Hr];
    rewrite ?Hch, ?Hst; try done.
  intros t id st chs Ht. apply (Hcore t (GoDeliver id st chs) I) in Ht. eauto.
Qed.

Lemma runs_snoc_start (w w' : World) (r : StartStepRequest) :
  tasks w' = tasks w ++ [GoStart r] ->
  forall t r', runs w' t r' <-> runs w t r' \/ (t = length (tasks w) /\ r' = r).
Proof.
  intros Ht t r'. unfold runs. rewrite Ht. split.
  - intros [H|[log H]]; apply lookup_app_Some in H as [H|[Hlen H]]; eauto.
    + apply list_lookup_singleton_Some in H as [Hz [= ->]]. right. split; [lia|done].
    + by apply list_lookup_singleton_Some in H as [_ ?].
  - intros [[H|[log H]]|[-> ->]].
    + left. by apply lookup_app_l_Some.
    + right. exists log. by apply lookup_app_l_Some.
    + left. rewrite lookup_app_r by lia.
      by replace (length (tasks w) - length (tasks w))%nat with 0%nat by lia.
Qed.

Lemma consistent_start (w w' : World) (r : StartStepRequest) :
  consistent w ->
  stepStatus (executor w) !! ID r = None ->
  stepStatus (executor w') = <[ID r := running_status]> (stepStatus (executor w)) ->
  stepWaitCh (executor w') = stepWaitCh (executor w) ->
  status_chans w' = status_chans w ->
  tasks w' = tasks w ++ [GoStart r] ->
  consistent w'.
Proof.
  intros [] Hnone Hst Hwait Hch Htasks.
  pose proof (waiters_eq w w' Hwait) as Hw.
  pose proof (runs_snoc_start w w' r Htasks) as Hr.
  assert (Hold : forall id x, status_is w id x -> status_is w' id x).
  { intros id x Hx. destruct (decide (ID r = id)) as [<-|Hne].
    - destruct Hx as (s & Hs & _). congruence.
    - by apply (status_is_insert_ne w w' (ID r) id running_status x Hst Hne). }
  assert (Hnew : forall id x, status_is w' id x ->
                   (id = ID r /\ x = Running) \/ (id <> ID r /\ status_is w id x)).
  { intros id x Hx. destruct (decide (ID r = id)) as [<-|Hne].
    - left. split; [done|].
      by apply (status_is_insert_eq w w' (ID r) running_status x Hst) in Hx.
    - right. split; [done|].
      by apply (status_is_insert_ne w w' (ID r) id running_status x Hst Hne). }
  constructor; repeat setoid_rewrite Hw; rewrite ?Hch; try done.
  - intros id ch Hin. rewrite Hst.
    destruct (waiters_started0 id ch Hin) as [s Hs].
    destruct (decide (ID r = id)) as [<-|Hne]; [congruence|].
    rewrite lookup_insert_ne by done. eauto.
  - intros t id st chs Ht. rewrite Htasks in Ht.
    apply lookup_app_Some in Ht as [Ht|[_ Ht]].
    + destruct (deliver_complete0 t id st chs Ht). split; auto.
    + by apply list_lookup_singleton_Some in Ht as [_ ?].
  - intros id ch Hrun Hin. destruct (Hnew _ _ Hrun) as [[-> _]|[_ Hrun']]; [|eauto].
    destruct (waiters_started0 _ _ Hin) as [s Hs]. congruence.
  - intros t r' Hrun. apply Hr in Hrun as [Hrun|[-> ->]]; [by eauto|].
    by apply (status_is_insert_eq w w' (ID r) running_status Running Hst).
  - intros t1 t2 r1 r2 H1 H2 Hid.
    apply Hr in H1 as [H1|[-> ->]], H2 as [H2|[-> ->]]; eauto.
    + destruct (runs_running0 _ _ H1) as (s & Hs & _). congruence.
    + destruct (runs_running0 _ _ H2) as (s & Hs & _). congruence.
Qed.

Lemma lookup_snoc_ne (l : list task) (k k' : task) (t : nat) :
  k' <> k -> (l ++ [k]) !! t = Some k' <-> l !! t = Some k'.
Proof.
  intros Hne. split; intros H.
  - apply lookup_app_Some in H as [H|[_ H]]; [done|].
    apply list_lookup_singleton_Some in H as [_ ->]. done.
  - by apply lookup_app_l_Some.
Qed.

Lemma consistent_register (w w' : World) (id : string) (s : StepStatus) (ctx : nat) :
  consistent w ->
  stepStatus (executor w) !! id = Some s ->
  Status s <> Complete ->
  stepStatus (executor w') = stepStatus (executor w) ->
  stepWaitCh (executor w') = <[id := [length (status_chans w)]]> (stepWaitCh (executor w)) ->
  status_chans w' = status_chans w ++ [[]] ->
  tasks w' = tasks w ++ [PollWaiting ctx (length (status_chans w))] ->
  consistent w'.
Proof.
  intros [] Hs Hnc Hst Hwait Hch Htasks.
  pose proof (status_is_eq w w' Hst) as Hsi.
  set (n := length (status_chans w)) in *.
  assert (Hw_eq : waiters w' id = [n]).
  { unfold waiters. by rewrite Hwait, lookup_insert_eq. }
  assert (Hw_ne : forall id', id' <> id -> waiters w' id' = waiters w id').
  { intros id' Hne. unfold waiters. by rewrite Hwait, lookup_insert_ne. }
  assert (Hcases : forall id' ch, ch ∈ waiters w' id' ->
            (id' = id /\ ch = n) \/ (id' <> id /\ ch ∈ waiters w id')).
  { intros id' ch Hin. destruct (decide (id' = id)) as [->|Hne].
    - left. rewrite Hw_eq in Hin. apply list_elem_of_singleton in Hin. done.
    - right. by rewrite Hw_ne in Hin. }
  assert (Hr : forall t r, runs w' t r <-> runs w t r).
  { intros t r. unfold runs. rewrite Htasks, lookup_snoc_ne by done.
    by setoid_rewrite lookup_snoc_ne. }
  constructor; repeat first [setoid_rewrite Hsi | setoid_rewrite Hr]; try done.
  - intros id' ch Hin. rewrite Hch, length_app. simpl.
    destruct (Hcases _ _ Hin) as [[-> ->]|[_ Hin']]; [unfold n; lia|].
    pose proof (waiters_allocated0 _ _ Hin'). lia.
  - intros id'. destruct (decide (id' = id)) as [->|Hne].
    + rewrite Hw_eq. apply NoDup_singleton.
    + by rewrite Hw_ne.
  - intros id1 id2 ch H1 H2.
    destruct (Hcases _ _ H1) as [[-> ->]|[Hne1 H1']],
             (Hcases _ _ H2) as [[-> Hn]|[Hne2 H2']]; try done.
    + pose proof (waiters_allocated0 _ _ H2'). unfold n in *. lia.
    + subst ch. pose proof (waiters_allocated0 _ _ H1'). unfold n in *. lia.
    + eauto.
  - intros id' ch Hin. rewrite Hst.
    destruct (Hcases _ _ Hin) as [[-> ->]|[_ Hin']]; eauto.
  - intros t id' st chs Ht. rewrite Htasks, lookup_snoc_ne in Ht by done.
    destruct (deliver_complete0 _ _ _ _ Ht) as [Hc Hsub]. split; [done|].
    assert (id' <> id) as Hne.
    { intros ->. destruct Hc as (s' & Hs' & Hc). congruence. }
    by rewrite Hw_ne.
  - intros id' ch Hrun Hin. rewrite Hch.
    destruct (Hcases _ _ Hin) as [[-> ->]|[_ Hin']].
    + rewrite lookup_app_r by (unfold n; lia).
      by replace (n - length (status_chans w))%nat with 0%nat by (unfold n; lia).
    + apply lookup_app_l_Some. eauto.
Qed.

(** Replacing task [t]: a lookup hits the new task at [t] and the old
    tasks elsewhere. *)
Lemma lookup_insert_task (l : list task) (t t' : nat) (k0 k k' : task) :
  l !! t = Some k0 ->
  <[t := k]> l !! t' = Some k' <-> (t' = t /\ k' = k) \/ (t' <> t /\ l !! t' = Some k').
Proof.
  intros Ht. destruct (decide (t = t')) as [->|Hne].
  - rewrite list_lookup_insert_eq by (by eapply lookup_lt_Some). split.
    + intros [= ->]. by left.
    + by intros [[_ ->]|[? _]].
  - rewrite list_lookup_insert_ne by done. split.
    + intros H. right. by split.
    + intros [[-> _]|[_ H]]; done.
Qed.

Lemma consistent_enter (w w' : World) (t : nat) (r : StartStepRequest) (log : option nat) :
  consistent w ->
  tasks w !! t = Some (GoStart r) ->
  stepStatus (executor w') = stepStatus (executor w) ->
  stepWaitCh (executor w') = stepWaitCh (executor w) ->
  status_chans w' = status_chans w ->
  tasks w' = <[t := GoRun r log]> (tasks w) ->
  consistent w'.
Proof.
  intros [] Ht Hst Hwait Hch Htasks.
  pose proof (waiters_eq w w' Hwait) as Hw.
  pose proof (status_is_eq w w' Hst) as Hs.
  assert (Hr : forall t' r', runs w' t' r' -> runs w t' r').
  { intros t' r' [H|[log' H]]; rewrite Htasks in H;
      apply (lookup_insert_task _ _ _ _ _ _ Ht) in H as [[-> [=]]|[_ H]]; subst.
    - by left.
    - by left.
    - right. eauto. }
  constructor; repeat first [setoid_rewrite Hw | setoid_rewrite Hs];
    rewrite ?Hch, ?Hst; try done.
  - intros t' id st chs H. rewrite Htasks in H.
    apply (lookup_insert_task _ _ _ _ _ _ Ht) in H as [[-> [=]]|[_ H]]. eauto.
  - eauto.
  - eauto.
Qed.

Lemma consistent_return (w w' : World) (t : nat) (r : StartStepRequest)
    (log : option nat) (st : StepStatus) :
  consistent w ->
  tasks w !! t = Some (GoRun r log) ->
  Status st = Complete ->
  stepStatus (executor w') = <[ID r := st]> (stepStatus (executor w)) ->
  stepWaitCh (executor w') = stepWaitCh (executor w) ->
  status_chans w' = status_chans w ->
  same_core (<[t := GoDeliver (ID r) st (waiters w (ID r))]> (tasks w)) (tasks w') ->
  consistent w'.
Proof.
  intros [] Ht Hc Hst Hwait Hch Hcore.
  pose proof (waiters_eq w w' Hwait) as Hw.
  assert (Hrun_t : runs w t r) by (right; eauto).
  assert (Hr : forall t' r', runs w' t' r' -> t' <> t /\ runs w t' r').
  { intros t' r' [H|[log' H]].
    - apply (Hcore t' (GoStart r') I) in H.
      apply (lookup_insert_task _ _ _ _ _ _ Ht) in H as [[-> [=]]|[? H]].
      split; [done|by left].
    - apply (Hcore t' (GoRun r' log') I) in H.
      apply (lookup_insert_task _ _ _ _ _ _ Ht) in H as [[-> [=]]|[? H]].
      split; [done|right; eauto]. }
  assert (Hdone : status_is w' (ID r) Complete).
  { by apply (status_is_insert_eq w w' (ID r) st Complete Hst). }
  assert (Hother : forall id x, id <> ID r -> status_is w' id x <-> status_is w id x).
  { intros id x Hne. by apply (status_is_insert_ne w w' (ID r) id st x Hst). }
  constructor; repeat setoid_rewrite Hw; rewrite ?Hch; try done.
  - intros id ch Hin. rewrite Hst. destruct (decide (ID r = id)) as [<-|Hne].
    + rewrite lookup_insert_eq. eauto.
    + rewrite lookup_insert_ne by done. eauto.
  - intros t' id st' chs H. apply (Hcore t' (GoDeliver id st' chs) I) in H.
    apply (lookup_insert_task _ _ _ _ _ _ Ht) in H as [[-> [= -> -> ->]]|[_ H]].
    + done.
    + destruct (deliver_complete0 _ _ _ _ H) as [Hcomp Hsub]. split; [|done].
      destruct (decide (id = ID r)) as [->|Hne]; [done|]. by apply Hother.
  - intros id ch Hrun Hin.
    destruct (decide (id = ID r)) as [->|Hne].
    + by pose proof (status_is_fun _ _ _ _ Hrun Hdone).
    + apply Hother in Hrun; eauto.
  - intros t' r' Hrun. destruct (Hr _ _ Hrun) as [Hne Hrun'].
    apply Hother; [|by eauto].
    intros Hid. apply Hne. by apply (runs_unique0 t' t r' r).
  - intros t1 t2 r1 r2 H1 H2. destruct (Hr _ _ H1), (Hr _ _ H2). eauto.
Qed.

Lemma consistent_send (w w' : World) (t : nat) (id : string) (st : StepStatus)
    (ch : nat) (rest : list nat) :
  consistent w ->
  tasks w !! t = Some (GoDeliver id st (ch :: rest)) ->
  status_chans w !! ch = Some [] ->
  stepStatus (executor w') = stepStatus (executor w) ->
  stepWaitCh (executor w') = stepWaitCh (executor w) ->
  status_chans w' = <[ch := [st]]> (status_chans w) ->
  tasks w' = <[t := GoDeliver id st rest]> (tasks w) ->
  consistent w'.
Proof.
  intros [] Ht Hempty Hst Hwait Hch Htasks.
  pose proof (waiters_eq w w' Hwait) as Hw.
  pose proof (status_is_eq w w' Hst) as Hs.
  destruct (deliver_complete0 _ _ _ _ Ht) as [Hcomp Hsub].
  assert (Hr : forall t' r', runs w' t' r' -> runs w t' r').
  { intros t' r' [H|[log' H]]; rewrite Htasks in H;
      apply (lookup_insert_task _ _ _ _ _ _ Ht) in H as [[-> [=]]|[_ H]].
    - by left.
    - right. eauto. }
  constructor; repeat first [setoid_rewrite Hw | setoid_rewrite Hs];
    rewrite ?Hch, ?Hst, ?length_insert; try done.
  - intros t' id' st' chs H. rewrite Htasks in H.
    apply (lookup_insert_task _ _ _ _ _ _ Ht) in H as [[-> [= -> -> ->]]|[_ H]].
    + split; [done|]. intros c Hc. apply Hsub. by apply elem_of_cons; right.
    + eauto.
  - intros id' ch' Hrun Hin.
    assert (ch' <> ch) as Hne.
    { intros ->. assert (id' = id) as -> by (apply (waiters_disjoint0 _ _ ch); [done|];
        apply Hsub; by apply elem_of_cons; left).
      by pose proof (status_is_fun _ _ _ _ Hrun Hcomp). }
    rewrite list_lookup_insert_ne by done. eauto.
  - eauto.
  - eauto.
Qed.

Lemma consistent_receive (w w' : World) (t ctx ch : nat) (st : StepStatus)
    (rest : list StepStatus) :
  consistent w ->
  tasks w !! t = Some (PollWaiting ctx ch) ->
  status_chans w !! ch = Some (st :: rest) ->
  stepStatus (executor w') = stepStatus (executor w) ->
  stepWaitCh (executor w') = stepWaitCh (executor w) ->
  status_chans w' = <[ch := rest]> (status_chans w) ->
  tasks w' = <[t := Returned]> (tasks w) ->
  consistent w'.
Proof.
  intros [] Ht Hfull Hst Hwait Hch Htasks.
  pose proof (waiters_eq w w' Hwait) as Hw.
  pose proof (status_is_eq w w' Hst) as Hs.
  assert (Hr : forall t' r', runs w' t' r' -> runs w t' r').
  { intros t' r' [H|[log' H]]; rewrite Htasks in H;
      apply (lookup_insert_task _ _ _ _ _ _ Ht) in H as [[-> [=]]|[_ H]].
    - by left.
    - right. eauto. }
  constructor; repeat first [setoid_rewrite Hw | setoid_rewrite Hs];
    rewrite ?Hch, ?Hst, ?length_insert; try done.
  - intros t' id' st' chs H. rewrite Htasks in H.
    apply (lookup_insert_task _ _ _ _ _ _ Ht) in H as [[-> [=]]|[_ H]]. eauto.
  - intros id' ch' Hrun Hin.
    assert (ch' <> ch) as Hne.
    { intros ->. pose proof (waiting_empty0 _ _ Hrun Hin). congruence. }
    rewrite list_lookup_insert_ne by done. eauto.
  - eauto.
  - eauto.
Qed.

(** Every step preserves consistency. *)
Lemma step_consistent (w w' : World) (a : action) (ev : event) :
  consistent w -> step w a = Some (w', ev) -> consistent w'.
Proof.
  intros Hc H. destruct (step_effect _ _ _ _ H).
  - by apply (consistent_frame w).
  - by apply (consistent_start w w' r).
  - by apply (consistent_register w w' id s ctx).
  - by apply (consistent_enter w w' t r log).
  - by apply (consistent_return w w' t r log st).
  - by apply (consistent_send w w' t id st ch rest).
  - by apply (consistent_receive w w' t ctx ch st rest).
Qed.

Lemma initial_consistent : consistent initial.
Proof.
  constructor; unfold waiters, runs, status_is; simpl; try done.
  - intros id ch H. rewrite lookup_empty in H. by apply elem_of_nil in H.
  - intros id. rewrite lookup_empty. apply NoDup_nil_2.
  - intros id1 id2 ch H. rewrite lookup_empty in H. by apply elem_of_nil in H.
  - intros id ch H. rewrite lookup_empty in H. by apply elem_of_nil in H.
  - intros id ch _ H. rewrite lookup_empty in H. by apply elem_of_nil in H.
  - intros t r [H|[log H]]; done.
  - intros t1 t2 r1 r2 [H|[log H]]; done.
Qed.

Lemma run_trace_consistent (tr : list action) (w w' : World) (evs : list event) :
  consistent w -> run_trace w tr = Some (w', evs) -> consistent w'.
Proof.
  revert w evs. induction tr as [|a tr IH]; intros w evs Hc H; simpl in H.
  - by simplify_eq.
  - destruct (step w a) as [[w1 ev]|] eqn:Hstep; [|done].
    destruct (run_trace w1 tr) as [[w2 evs2]|] eqn:Hrest; [|done]. simplify_eq.
    eauto using step_consistent.
Qed.

Lemma reachable_consistent (w : World) : reachable w -> consistent w.
Proof. intros (tr & evs & H). eauto using run_trace_consistent, initial_consistent. Qed.

(** ** Completion *)

(** The loop [for _, ch := range channels { ch <- status }] runs to its end
    when the channels are distinct and empty: every one of them then holds
    the status, once. *)
Lemma deliver_all (chs : list nat) (w : World) (t : nat) (id : string) (st : StepStatus) :
  tasks w !! t = Some (GoDeliver id st chs) ->
  NoDup chs ->
  (forall ch, ch ∈ chs -> status_chans w !! ch = Some []) ->
  exists w',
    run_trace w (replicate (length chs) (Send t))
      = Some (w', replicate (length chs) Silent) /\
    tasks w' = <[t := GoDeliver id st []]> (tasks w) /\
    executor w' = executor w /\
    (forall ch, ch ∈ chs -> status_chans w' !! ch = Some [st]) /\
    (forall ch, ch ∉ chs -> status_chans w' !! ch = status_chans w !! ch).
Proof.
  revert w. induction chs as [|c chs IH]; intros w Ht Hnd Hempty; simpl.
  - exists w. repeat split; try done.
    + by rewrite list_insert_id.
    + intros ch Hin. by apply elem_of_nil in Hin.
  - apply NoDup_cons in Hnd as [Hc Hnd].
    assert (Hce : status_chans w !! c = Some []) by (apply Hempty; by left).
    rewrite Ht, Hce.
    set (w1 := set_task t (GoDeliver id st chs)
                 (set_status_chans (<[c := [st]]> (status_chans w)) w)).
    assert (Hlt : (t < length (tasks w))%nat) by (by eapply lookup_lt_Some).
    destruct (IH w1) as (w' & Hrun & Htasks & Hexec & Hin & Hout).
    + unfold w1. simpl. by rewrite list_lookup_insert_eq.
    + done.
    + intros ch Hch. unfold w1. simpl.
      rewrite list_lookup_insert_ne by (intros ->; done).
      apply Hempty. by right.
    + exists w'. rewrite Hrun. split; [done|]. split.
      { rewrite Htasks. unfold w1. simpl. by rewrite list_insert_insert_eq. }
      split; [by rewrite Hexec|]. split.
      * intros ch Hch. apply elem_of_cons in Hch as [->|Hch]; [|by apply Hin].
        rewrite Hout by done. unfold w1. simpl.
        apply list_lookup_insert_eq. by eapply lookup_lt_Some.
      * intros ch Hch. apply not_elem_of_cons in Hch as [Hne Hch].
        rewrite Hout by done. unfold w1. simpl.
        by rewrite list_lookup_insert_ne.
Qed.

(** After the schedule [Sample.poll_until_complete] the step is complete,
    its goroutine has left the loop, the poller has been served, and the
    wait-channel registry still holds the waiter list of the step. *)
Lemma completion_keeps_waiter_list :
  exists w resp,
    run_trace initial Sample.poll_until_complete
      = Some (w, [StartReturned "s" None true; PollBlocked "s" 1; Silent; Silent;
                  Silent; PollDelivered 1 resp]) /\
    stepStatus (executor w) !! "s" = Some Sample.ok_status /\
    tasks w = [GoDeliver "s" Sample.ok_status []; Returned] /\
    stepWaitCh (executor w) !! "s" = Some [0%nat].
Proof.
  eexists _, _. split; [vm_compute; reflexivity|].
  repeat split; vm_compute; reflexivity.
Qed.

(** C8, as the code has it: when the run of a reachable world returns, the
    status entry becomes the complete record, the goroutine reads the
    waiter list of the identifier and sends the status once on each of its
    channels, none of which blocks, and then ends; the wait-channel
    registry is left as it was. *)
Theorem completion_notifies_waiters (w : World) (t : nat) (r : StartStepRequest)
    (log : option nat) (env : StepEnv) :
  reachable w ->
  tasks w !! t = Some (GoRun r log) ->
  let st := complete_status (executeStep r env (errors w)).1 in
  let chs := waiters w (ID r) in
  exists w1 w2,
    step w (ReturnRun t env) = Some (w1, Silent) /\
    Status st = Complete /\
    stepStatus (executor w1) !! ID r = Some st /\
    tasks w1 !! t = Some (GoDeliver (ID r) st chs) /\
    run_trace w1 (replicate (length chs) (Send t))
      = Some (w2, replicate (length chs) Silent) /\
    (forall ch, ch ∈ chs ->
       status_chans w !! ch = Some [] /\ status_chans w2 !! ch = Some [st]) /\
    (forall ch, ch ∉ chs -> status_chans w2 !! ch = status_chans w !! ch) /\
    tasks w2 !! t = Some (GoDeliver (ID r) st []) /\
    step w2 (Send t) = None /\
    stepStatus (executor w2) !! ID r = Some st /\
    stepWaitCh (executor w2) = stepWaitCh (executor w).
Proof.
  intros Hreach Ht st chs.
  pose proof (reachable_consistent w Hreach) as Hc.
  assert (Hrun : status_is w (ID r) Running).
  { apply (runs_running w Hc t). right. eauto. }
  assert (Hlt : (t < length (tasks w))%nat) by (by eapply lookup_lt_Some).
  destruct (step w (ReturnRun t env)) as [[w1 ev]|] eqn:Hstep; cycle 1.
  { unfold step in Hstep. rewrite Ht in Hstep.
    destruct (executeStep r env (errors w)). simpl in Hstep. discriminate. }
  assert (Hw1 : ev = Silent /\
                stepStatus (executor w1) = <[ID r := st]> (stepStatus (executor w)) /\
                stepWaitCh (executor w1) = stepWaitCh (executor w) /\
                status_chans w1 = status_chans w /\
                tasks w1 !! t = Some (GoDeliver (ID r) st chs)).
  { unfold step in Hstep. rewrite Ht in Hstep. subst st chs. unfold waiters.
    destruct (executeStep r env (errors w)) as [res h]. simpl in Hstep.
    destruct (Detach r); simplify_eq; simpl; repeat split; try done.
    - apply lookup_app_l_Some. by apply list_lookup_insert_eq.
    - by apply list_lookup_insert_eq. }
  destruct Hw1 as (-> & Hst1 & Hwait1 & Hch1 & Ht1).
  destruct (deliver_all chs w1 t (ID r) st Ht1) as (w2 & Hsend & Htasks2 & Hexec2 & Hin & Hout).
  { apply (waiters_nodup w Hc). }
  { intros ch Hch. rewrite Hch1. by apply (waiting_empty w Hc (ID r)). }
  exists w1, w2. split; [done|]. split; [done|].
  split; [by rewrite Hst1, lookup_insert_eq|]. split; [done|]. split; [done|].
  split.
  { intros ch Hch. split; [by apply (waiting_empty w Hc (ID r))|by apply Hin]. }
  split; [intros ch Hch; by rewrite Hout, Hch1|].
  assert (Ht2 : tasks w2 !! t = Some (GoDeliver (ID r) st [])).
  { rewrite Htasks2. apply list_lookup_insert_eq. by eapply lookup_lt_Some. }
  split; [done|]. split; [unfold step; by rewrite Ht2|].
  rewrite Hexec2. split; [by rewrite Hst1, lookup_insert_eq|done].
Qed.

Lemma completion_notifies_waiters_witness :
  exists w1 w2,
    step (Sample.world_after Sample.polled_running) (ReturnRun 0 Sample.env_ok)
      = Some (w1, Silent) /\
    run_trace w1 [Send 0] = Some (w2, [Silent]) /\
    status_chans w2 !! 0%nat = Some [Sample.ok_status] /\
    step w2 (Send 0) = None /\
    stepWaitCh (executor w2)
      = stepWaitCh (executor (Sample.world_after Sample.polled_running)).
Proof.
  assert (Hreach : reachable (Sample.world_after Sample.polled_running)).
  { exists Sample.polled_running. eexists. vm_compute. reflexivity. }
  destruct (completion_notifies_waiters (Sample.world_after Sample.polled_running) 0
              (Sample.request "s" 0 false false) None Sample.env_ok Hreach eq_refl)
    as (w1 & w2 & Hstep & _ & _ & _ & Hrun & Hin & _ & _ & Hend & _ & Hwait).
  exists w1, w2. split; [exact Hstep|]. split; [exact Hrun|].
  split; [|split; [exact Hend|exact Hwait]].
  apply (Hin 0%nat). vm_compute. apply list_elem_of_here.
Defined.

(** ** Starvation *)

(** A starved call stays starved, whatever is scheduled. *)
Lemma step_starved (w w' : World) (a : action) (ev : event) (t ctx ch : nat) :
  starved w t ctx ch -> step w a = Some (w', ev) -> starved w' t ctx ch.
Proof.
  intros [Ht Hempty Hreg Hdel] H.
  assert (Hlt : (ch < length (status_chans w))%nat) by (by eapply lookup_lt_Some).
  destruct (step_effect _ _ _ _ H) as
    [Hst Hwait Hch Hcore
    |r Hnone Hst Hwait Hch Htasks
    |id s ctx' Hs Hnc Hst Hwait Hch Htasks
    |t0 r log Ht0 Hst Hwait Hch Htasks
    |t0 r log st Ht0 Hc Hst Hwait Hch Hcore
    |t0 id st c rest Ht0 Hce Hst Hwait Hch Htasks
    |t0 ctx' c st rest Ht0 Hcf Hst Hwait Hch Htasks].
  - constructor.
    + by apply (Hcore t (PollWaiting ctx ch) I).
    + by rewrite Hch.
    + intros id. by rewrite (waiters_eq w w' Hwait).
    + intros t' id st chs Ht'. apply (Hcore t' (GoDeliver id st chs) I) in Ht'. eauto.
  - constructor.
    + rewrite Htasks. by apply lookup_app_l_Some.
    + by rewrite Hch.
    + intros id. by rewrite (waiters_eq w w' Hwait).
    + intros t' id st chs Ht'. rewrite Htasks, lookup_snoc_ne in Ht' by done. eauto.
  - constructor.
    + rewrite Htasks. by apply lookup_app_l_Some.
    + rewrite Hch. by apply lookup_app_l_Some.
    + intros id'. unfold waiters. rewrite Hwait.
      destruct (decide (id = id')) as [<-|Hne].
      * rewrite lookup_insert_eq. simpl. intros Hin%list_elem_of_singleton. lia.
      * rewrite lookup_insert_ne by done. apply Hreg.
    + intros t' id' st chs Ht'. rewrite Htasks, lookup_snoc_ne in Ht' by done. eauto.
  - constructor.
    + rewrite Htasks. apply (lookup_insert_task _ _ _ _ _ _ Ht0). right.
      split; [|done]. intros ->. congruence.
    + by rewrite Hch.
    + intros id. by rewrite (waiters_eq w w' Hwait).
    + intros t' id st chs Ht'. rewrite Htasks in Ht'.
      apply (lookup_insert_task _ _ _ _ _ _ Ht0) in Ht' as [[_ [=]]|[_ Ht']]. eauto.
  - constructor.
    + apply (Hcore t (PollWaiting ctx ch) I).
      apply (lookup_insert_task _ _ _ _ _ _ Ht0). right.
      split; [|done]. intros ->. congruence.
    + by rewrite Hch.
    + intros id. by rewrite (waiters_eq w w' Hwait).
    + intros t' id st' chs Ht'. apply (Hcore t' (GoDeliver id st' chs) I) in Ht'.
      apply (lookup_insert_task _ _ _ _ _ _ Ht0) in Ht' as [[_ [= -> -> ->]]|[_ Ht']].
      * apply Hreg.
      * eauto.
  - assert (Hne : c <> ch).
    { intros ->. apply (Hdel _ _ _ _ Ht0). by left. }
    constructor.
    + rewrite Htasks. apply (lookup_insert_task _ _ _ _ _ _ Ht0). right.
      split; [|done]. intros ->. congruence.
    + rewrite Hch. by rewrite list_lookup_insert_ne.
    + intros id'. by rewrite (waiters_eq w w' Hwait).
    + intros t' id' st' chs Ht'. rewrite Htasks in Ht'.
      apply (lookup_insert_task _ _ _ _ _ _ Ht0) in Ht' as [[_ [= -> -> ->]]|[_ Ht']].
      * intros Hin. apply (Hdel _ _ _ _ Ht0). by right.
      * eauto.
  - assert (Hne : c <> ch) by (intros ->; congruence).
    constructor.
    + rewrite Htasks. apply (lookup_insert_task _ _ _ _ _ _ Ht0). right.
      split; [|done]. intros ->. congruence.
    + rewrite Hch. by rewrite list_lookup_insert_ne.
    + intros id'. by rewrite (waiters_eq w w' Hwait).
    + intros t' id' st' chs Ht'. rewrite Htasks in Ht'.
      apply (lookup_insert_task _ _ _ _ _ _ Ht0) in Ht' as [[_ [=]]|[_ Ht']]. eauto.
Qed.

Lemma run_trace_starved (tr : list action) (w w' : World) (evs : list event)
    (t ctx ch : nat) :
  starved w t ctx ch -> run_trace w tr = Some (w', evs) -> starved w' t ctx ch.
Proof.
  revert w evs. induction tr as [|a tr IH]; intros w evs Hs H; simpl in H.
  - by simplify_eq.
  - destruct (step w a) as [[w1 ev]|] eqn:Hstep; [|done].
    destruct (run_trace w1 tr) as [[w2 evs2]|] eqn:Hrest; [|done]. simplify_eq.
    eauto using step_starved.
Qed.

(** A starved call cannot return. *)
Lemma starved_blocked (w : World) (t ctx ch : nat) :
  starved w t ctx ch -> step w (Receive t) = None.
Proof. intros [Ht Hempty _ _]. unfold step. by rewrite Ht, Hempty. Qed.

(** In a reachable world, a [PollStep] on a running step that already has a
    waiter takes the place of that waiter in the registry and leaves it
    starved. *)
Lemma earlier_waiter_starved (w : World) (t ctx0 ch ctx : nat) (id : string) :
  reachable w ->
  id <> "" ->
  status_is w id Running ->
  tasks w !! t = Some (PollWaiting ctx0 ch) ->
  ch ∈ waiters w id ->
  exists w',
    step w (CallPollStep ctx id) = Some (w', PollBlocked id (length (tasks w))) /\
    stepWaitCh (executor w') !! id = Some [length (status_chans w)] /\
    starved w' t ctx0 ch.
Proof.
  intros Hreach Hid Hrun Ht Hin.
  pose proof (reachable_consistent w Hreach) as Hc.
  pose proof (waiters_allocated w Hc _ _ Hin) as Hlt.
  pose proof (waiting_empty w Hc _ _ Hrun Hin) as Hempty.
  destruct Hrun as (s & Hs & Hst).
  assert (Hreg : exists chs, stepWaitCh (executor w) !! id = Some chs).
  { unfold waiters in Hin. destruct (stepWaitCh (executor w) !! id) as [chs|]; [eauto|].
    by apply elem_of_nil in Hin. }
  destruct Hreg as [chs Hchs].
  unfold step, PollStep. destruct (decide (id = "")); [done|].
  rewrite Hs, Hst. unfold register_waiter. rewrite Hchs.
  eexists. split; [reflexivity|]. simpl. split; [by rewrite lookup_insert_eq|].
  constructor; simpl.
  - by apply lookup_app_l_Some.
  - by apply lookup_app_l_Some.
  - intros id'. unfold waiters. simpl. destruct (decide (id = id')) as [<-|Hne].
    + rewrite lookup_insert_eq. simpl. intros Hn%list_elem_of_singleton. lia.
    + rewrite lookup_insert_ne by done. intros Hin'.
      apply Hne. by apply (waiters_disjoint w Hc id id' ch).
  - intros t' id' st chs' Ht' Hin'. rewrite lookup_snoc_ne in Ht' by done.
    destruct (deliver_complete w Hc _ _ _ _ Ht') as [(s' & Hs' & Hcomp) Hsub].
    assert (id = id') as <- by (apply (waiters_disjoint w Hc id id' ch); auto).
    congruence.
Qed.

(** C1 fails on the code.  Two callers poll the running step "s"; the
    second registration replaces the waiter list, so completion sends the
    status to the second caller only.  The first caller's channel stays
    empty in every continuation of the schedule: its [PollStep] never
    returns. *)
Theorem second_poller_starves_first :
  exists w,
    run_trace initial Sample.two_pollers
      = Some (w, [StartReturned "s" None true; PollBlocked "s" 1; PollBlocked "s" 2;
                  Silent; Silent; Silent]) /\
    tasks w = [GoDeliver "s" Sample.ok_status []; PollWaiting 0 0; PollWaiting 1 1] /\
    status_chans w = [[]; [Sample.ok_status]] /\
    stepWaitCh (executor w) !! "s" = Some [1%nat] /\
    is_Some (step w (Receive 2)) /\
    forall tr w' evs,
      run_trace w tr = Some (w', evs) ->
      tasks w' !! 1%nat = Some (PollWaiting 0 0) /\
      status_chans w' !! 0%nat = Some [] /\
      step w' (Receive 1) = None.
Proof.
  eexists. split; [vm_compute; reflexivity|].
  split; [reflexivity|]. split; [reflexivity|]. split; [vm_compute; reflexivity|].
  split; [vm_compute; eauto|].
  intros tr w' evs Hrun.
  match type of Hrun with run_trace ?w0 _ = _ => assert (Hs : starved w0 1 0 0) end.
  { constructor.
    - reflexivity.
    - reflexivity.
    - intros id. unfold waiters.
      match goal with |- _ ∉ default [] (stepWaitCh (executor ?w0) !! id) =>
        assert (Hm : stepWaitCh (executor w0) = <["s" := [1%nat]]> ∅)
          by (vm_compute; reflexivity)
      end.
      rewrite Hm. destruct (decide (id = "s")) as [->|Hne].
      + rewrite lookup_insert_eq. simpl.
        intros Hin. apply list_elem_of_singleton in Hin. discriminate.
      + rewrite lookup_insert_ne by done. rewrite lookup_empty. simpl.
        apply not_elem_of_nil.
    - intros [|[|[|t']]] id st chs Ht'; simpl in Ht'; try discriminate.
      injection Ht' as <- <- <-. apply not_elem_of_nil. }
  pose proof (run_trace_starved _ _ _ _ _ _ _ Hs Hrun) as Hs'.
  split; [apply Hs'|]. split; [apply Hs'|]. by eapply starved_blocked.
Qed.

(** ** Polling a complete step *)

(** On a complete entry [PollStep] converts the stored status and returns:
    it makes no channel, registers nothing and spawns nothing. *)
Lemma PollStep_complete (w : World) (ctx : nat) (id : string) (s : StepStatus) :
  id <> "" ->
  stepStatus (executor w) !! id = Some s ->
  Status s = Complete ->
  step w (CallPollStep ctx id)
    = Some (set_errors (convertStatus s (errors w)).2 w,
            PollReturned id (convertStatus s (errors w)).1 None).
Proof.
  intros Hid Hs Hc. unfold step, PollStep.
  destruct (decide (id = "")); [done|]. rewrite Hs, Hc.
  by destruct (convertStatus s (errors w)).
Qed.

(** Converting a status without process failure leaves the errors alone,
    so polling such a complete entry again gives the same response. *)
Lemma convertStatus_without_process_failure (s : StepStatus) (h : heap) :
  match StepState s with
  | Some st => OOMKilled st = false /\ ExitCode st = 0
  | None => True
  end ->
  (convertStatus s h).2 = h /\
  (convertStatus s (convertStatus s h).2).1 = (convertStatus s h).1.
Proof.
  intros Hst.
  assert (Hh : (convertStatus s h).2 = h).
  { unfold convertStatus. unfold_M. destruct (StepState s) as [st|].
    - destruct Hst as [-> ->]. simpl. unfold Error. by destruct (is_nil (StepErr s)).
    - simpl. unfold Error. by destruct (is_nil (StepErr s)). }
  split; [done|]. by rewrite Hh.
Qed.

(** C7 fails on the code.  The step "s" exits with code 1 while the writer
    fails to close, so its stored error is a [*multierror.Error]; each
    [PollStep] on the complete entry appends "exit status 1" to that very
    object, and the second response differs from the first. *)
Theorem repeated_poll_changes_response :
  exists w resp1 resp2,
    run_trace initial Sample.poll_twice_after_completion
      = Some (w, [StartReturned "s" None true; Silent; Silent;
                  PollReturned "s" resp1 None; PollReturned "s" resp2 None]) /\
    rError resp1 = ListFormatFunc [Errorf "close failed"; Errorf "exit status 1"] /\
    rError resp2 = ListFormatFunc [Errorf "close failed"; Errorf "exit status 1";
                                   Errorf "exit status 1"] /\
    resp1 <> resp2 /\
    errors w = [[Errorf "close failed"; Errorf "exit status 1"; Errorf "exit status 1"]].
Proof.
  eexists _, _, _. split; [vm_compute; reflexivity|].
  split; [vm_compute; reflexivity|]. split; [vm_compute; reflexivity|].
  split; [|vm_compute; reflexivity]. intros Heq.
  apply (f_equal rError) in Heq. vm_compute in Heq. discriminate Heq.
Qed.

(** ** Cancellation by a caller *)

(** A blocked [PollStep] stays blocked while its channel is empty. *)
Lemma poll_waits (w w' : World) (a : action) (ev : event) (t ctx ch : nat) :
  tasks w !! t = Some (PollWaiting ctx ch) ->
  status_chans w !! ch = Some [] ->
  step w a = Some (w', ev) ->
  tasks w' !! t = Some (PollWaiting ctx ch).
Proof.
  intros Ht Hempty H.
  destruct (step_effect _ _ _ _ H) as
    [Hst Hwait Hch Hcore
    |r Hnone Hst Hwait Hch Htasks
    |id s ctx' Hs Hnc Hst Hwait Hch Htasks
    |t0 r log Ht0 Hst Hwait Hch Htasks
    |t0 r log st Ht0 Hc Hst Hwait Hch Hcore
    |t0 id st c rest Ht0 Hce Hst Hwait Hch Htasks
    |t0 ctx' c st rest Ht0 Hcf Hst Hwait Hch Htasks].
  - by apply (Hcore t (PollWaiting ctx ch) I).
  - rewrite Htasks. by apply lookup_app_l_Some.
  - rewrite Htasks. by apply lookup_app_l_Some.
  - rewrite Htasks. apply (lookup_insert_task _ _ _ _ _ _ Ht0). right.
    split; [|done]. intros ->. congruence.
  - apply (Hcore t (PollWaiting ctx ch) I).
    apply (lookup_insert_task _ _ _ _ _ _ Ht0). right.
    split; [|done]. intros ->. congruence.
  - rewrite Htasks. apply (lookup_insert_task _ _ _ _ _ _ Ht0). right.
    split; [|done]. intros ->. congruence.
  - rewrite Htasks. apply (lookup_insert_task _ _ _ _ _ _ Ht0). right.
    split; [|done]. intros ->. congruence.
Qed.

(** After the schedule [Sample.poll_then_cancel] the context of the caller
    is canceled, the step is running, and the [PollStep] call is still
    waiting; no step that can be scheduled makes it return. *)
Lemma canceled_poll_keeps_waiting :
  run_trace initial Sample.poll_then_cancel
    = Some (Sample.world_after Sample.poll_then_cancel,
            [StartReturned "s" None true; Silent; PollBlocked "s" 1; Silent]) /\
  5%nat ∈ canceled (Sample.world_after Sample.poll_then_cancel) /\
  stepStatus (executor (Sample.world_after Sample.poll_then_cancel)) !! "s"
    = Some running_status /\
  tasks (Sample.world_after Sample.poll_then_cancel)
    = [GoRun (Sample.request "s" 0 false false) None; PollWaiting 5 0] /\
  step (Sample.world_after Sample.poll_then_cancel) (Receive 1) = None /\
  forall a w' ev,
    step (Sample.world_after Sample.poll_then_cancel) a = Some (w', ev) ->
    tasks w' !! 1%nat = Some (PollWaiting 5 0).
Proof.
  split; [vm_compute; reflexivity|].
  split; [apply (bool_decide_unpack _); vm_compute; exact I|].
  split; [vm_compute; reflexivity|].
  split; [vm_compute; reflexivity|]. split; [vm_compute; reflexivity|].
  intros a w' ev. apply poll_waits; vm_compute; reflexivity.
Qed.

(** Canceling a context leaves every step that does not observe contexts
    as it is. *)
Lemma cancel_commutes (w : World) (c : nat) (a : action) :
  observes_ctx a = false ->
  step (cancel c w) a = and_canceled c (step w a).
Proof.
  intros Ha. destruct a; try discriminate Ha; unfold step; simpl;
    repeat (case_match; simplify_eq; try done).
  unfold cancel. simpl. do 3 f_equal.
  apply set_eq. intros x. rewrite !elem_of_union. tauto.
Qed.

(** C5, as the code has it: canceling the context of a caller changes no
    step but those of [StreamOutput].  A [PollStep] that waits goes on
    waiting until its channel holds the status, whatever its context; the
    watcher of a [StreamOutput] whose context is canceled closes the live
    channel and unsubscribes it; and every step of the goroutines that run
    a step is enabled, and acts, as without the cancellation. *)
Theorem caller_cancellation (w : World) (c t : nat) :
  (forall a, observes_ctx a = false ->
     step (cancel c w) a = and_canceled c (step w a)) /\
  (forall ch, tasks w !! t = Some (PollWaiting c ch) ->
     status_chans w !! ch = Some [] ->
     step (cancel c w) (Receive t) = None) /\
  (forall chData l,
     tasks w !! t = Some (Watcher c chData l) ->
     is_Some (data_closed w !! chData) ->
     exists w',
       step (cancel c w) (Watch t) = Some (w', Silent) /\
       data_closed w' !! chData = Some true /\
       (forall log, step_logs w' !! l = Some log -> chData ∉ log_subscribers log) /\
       tasks w' = <[t := Returned]> (tasks w) /\
       executor w' = executor w /\
       status_chans w' = status_chans w /\
       errors w' = errors w).
Proof.
  split; [intros a Ha; by apply cancel_commutes|]. split.
  - intros ch Ht Hempty. rewrite cancel_commutes by done.
    unfold step. by rewrite Ht, Hempty.
  - intros chData l Ht Hch. unfold step. simpl. rewrite Ht.
    assert (Hc : bool_decide (c ∈ {[c]} ∪ canceled w) = true).
    { apply bool_decide_eq_true_2, elem_of_union_l, elem_of_singleton. reflexivity. }
    rewrite Hc. simpl. eexists. split; [reflexivity|]. simpl.
    split; [apply list_lookup_insert_eq; by apply lookup_lt_is_Some|].
    split; [|done].
    intros log Hlog. rewrite list_lookup_alter_eq in Hlog.
    destruct (step_logs w !! l) as [log0|]; [|discriminate Hlog].
    injection Hlog as <-. unfold Unsubscribe. simpl.
    intros Hin. apply list_elem_of_filter in Hin as [Hne _]. by apply Hne.
Qed.

Lemma caller_cancellation_witness :
  exists w',
    step (cancel 0 (Sample.world_after Sample.stream_drone_step)) (Watch 2)
      = Some (w', Silent) /\
    data_closed w' !! 0%nat = Some true /\
    (forall log, step_logs w' !! 0%nat = Some log -> 0%nat ∉ log_subscribers log).
Proof.
  destruct (proj2 (proj2 (caller_cancellation
              (Sample.world_after Sample.stream_drone_step) 0 2)) 0%nat 0%nat)
    as (w' & Hstep & Hclosed & Hunsub & _).
  - vm_compute. reflexivity.
  - vm_compute. eauto.
  - exists w'. split; [exact Hstep|]. split; [exact Hclosed|exact Hunsub].
Defined.

(** ** The log registry *)

(** A registered log buffer stays registered. *)
Lemma step_log_registered (w w' : World) (a : action) (ev : event) (id : string) :
  log_registered w id -> step w a = Some (w', ev) -> log_registered w' id.
Proof.
  intros (l & log & Hl & Hlog) H.
  assert (Hlt : (l < length (step_logs w))%nat) by (by eapply lookup_lt_Some).
  assert (Halter : forall f l0, exists log', alter f l0 (step_logs w) !! l = Some log').
  { intros f l0. destruct (decide (l0 = l)) as [->|Hne].
    - rewrite list_lookup_alter_eq, Hlog. simpl. eauto.
    - rewrite list_lookup_alter_ne by done. eauto. }
  step_cases H; unfold_locked; unfold_world; unfold log_registered; simpl;
    try (by exists l, log).
  all: try (match goal with |- context [<[?n := ?x]> (step_logs _)] =>
      destruct (decide (n = l)) as [->|Hne];
        [exists l, x; split; [done|]; by apply list_lookup_insert_eq
        |exists l, log; split; [done|]; by rewrite list_lookup_insert_ne]
    end).
  - destruct (decide (ID r = id)) as [<-|Hne].
    + exists (length (step_logs w)), NewStepLog. rewrite lookup_insert_eq.
      split; [done|]. rewrite lookup_app_r by lia.
      by replace (length (step_logs w) - length (step_logs w))%nat with 0%nat by lia.
    + exists l, log. rewrite lookup_insert_ne by done.
      split; [done|]. by apply lookup_app_l_Some.
  - match goal with |- context [match ?lg with Some _ => _ | None => _ end] =>
      destruct lg as [lx|]
    end; [|by exists l, log].
    destruct (Halter finish_log lx) as [log' Hlog']. by exists l, log'.
  - match goal with |- context [match ?lg with Some _ => _ | None => _ end] =>
      destruct lg as [lx|]
    end; [|by exists l, log].
    destruct (Halter finish_log lx) as [log' Hlog']. by exists l, log'.
  - match goal with |- context [alter ?f ?lx (step_logs w)] =>
      destruct (Halter f lx) as [log' Hlog']
    end.
    by exists l, log'.
Qed.

Lemma run_trace_log_registered (tr : list action) (w w' : World) (evs : list event)
    (id : string) :
  log_registered w id -> run_trace w tr = Some (w', evs) -> log_registered w' id.
Proof.
  revert w evs. induction tr as [|a tr IH]; intros w evs Hs H; simpl in H.
  - by simplify_eq.
  - destruct (step w a) as [[w1 ev]|] eqn:Hstep; [|done].
    destruct (run_trace w1 tr) as [[w2 evs2]|] eqn:Hrest; [|done]. simplify_eq.
    eauto using step_log_registered.
Qed.

(** With a registered log buffer, a lookup of [StreamOutput] finds it,
    however long after the call, and goes on to [Subscribe]: the call
    returns the buffered bytes and a channel, or what a failing [Subscribe]
    has returned; it neither waits nor reports that the step has not
    started. *)
Lemma StreamLookup_finds (w : World) (t ctx offset : nat) (id : string) (elapsed : Z)
    (sub : error) :
  log_registered w id ->
  tasks w !! t = Some (StreamLooking ctx id offset) ->
  exists w' ev,
    step w (StreamLookup t elapsed sub) = Some (w', ev) /\
    tasks w' !! t = Some Returned /\
    (sub = ErrNil -> exists oldOut chData, ev = StreamReturned oldOut chData) /\
    (sub <> ErrNil -> exists oldOut, ev = StreamAborted oldOut sub).
Proof.
  intros (l & log & Hl & Hlog) Ht.
  assert (Hlt : (t < length (tasks w))%nat) by (by eapply lookup_lt_Some).
  unfold step. rewrite Ht, Hl, Hlog. unfold Subscribe.
  destruct sub as [|c|p]; simpl; eexists _, _; (split; [reflexivity|]); simpl.
  - split; [|split; [eauto|done]].
    rewrite lookup_app_l by (by rewrite length_insert).
    by apply list_lookup_insert_eq.
  - split; [by apply list_lookup_insert_eq|]. split; [done|eauto].
  - split; [by apply list_lookup_insert_eq|]. split; [done|eauto].
Qed.

(** Without an entry in the log registry, a lookup of [StreamOutput] fails
    with "Step has not started" once five seconds have passed since the
    call, and sleeps before. *)
Lemma StreamLookup_misses (w : World) (t ctx offset : nat) (id : string) (elapsed : Z)
    (sub : error) :
  stepLog (executor w) !! id = None ->
  tasks w !! t = Some (StreamLooking ctx id offset) ->
  (timeoutDelay <= elapsed ->
     step w (StreamLookup t elapsed sub)
       = Some (set_task t Returned w,
               StreamFailed (BadRequestError "Step has not started"))) /\
  (elapsed < timeoutDelay ->
     step w (StreamLookup t elapsed sub)
       = Some (set_task t (StreamSleeping ctx id offset) w, Silent)).
Proof.
  intros Hl Ht. unfold step. rewrite Ht, Hl.
  split; intros He.
  - by rewrite (proj2 (Z.leb_le _ _) He).
  - by rewrite (proj2 (Z.leb_gt _ _) He).
Qed.

(** Only the entry into a run writes to the log registry. *)
Lemma step_stepLog (w w' : World) (a : action) (ev : event) :
  enters_run a = false ->
  step w a = Some (w', ev) ->
  stepLog (executor w') = stepLog (executor w).
Proof.
  intros Ha H. step_cases H; try discriminate Ha; unfold_locked; unfold_world; done.
Qed.

(** A step leaves the log registry as it is, or is the entry of a goroutine
    into a run of the drone path, which registers a buffer under the
    identifier of its request. *)
Lemma step_stepLog_cases (w w' : World) (a : action) (ev : event) :
  step w a = Some (w', ev) ->
  stepLog (executor w') = stepLog (executor w) \/
  exists t r l,
    a = EnterRun t /\
    tasks w !! t = Some (GoStart r) /\ LogDrone r = true /\
    stepLog (executor w') = <[ID r := l]> (stepLog (executor w)).
Proof.
  intros H. step_cases H; unfold_locked; unfold_world; eauto 10.
Qed.

(** A goroutine that is still to enter its run was so before the step, or
    has just been launched for an identifier without status entry. *)
Lemma step_start_origin (w w' : World) (a : action) (ev : event) (t : nat)
    (r : StartStepRequest) :
  step w a = Some (w', ev) ->
  tasks w' !! t = Some (GoStart r) ->
  tasks w !! t = Some (GoStart r) \/ stepStatus (executor w) !! ID r = None.
Proof.
  intros H Ht. assert (Hcore : core (GoStart r)) by done.
  destruct (step_effect _ _ _ _ H)
    as [_ _ _ Hsame|r0 Hnone _ _ _ Htasks|id0 s0 ctx _ _ _ _ _ Htasks
       |t0 r0 log Ht0 _ _ _ Htasks|t0 r0 log st Ht0 _ _ _ _ Hsame
       |t0 id0 st ch rest Ht0 _ _ _ _ Htasks|t0 ctx ch st rest Ht0 _ _ _ _ Htasks].
  - left. by apply (Hsame t _ Hcore).
  - rewrite Htasks in Ht. apply lookup_app_Some in Ht as [Ht|[_ Ht]]; [by left|].
    apply list_lookup_singleton_Some in Ht as [_ Heq]. injection Heq as <-. by right.
  - rewrite Htasks in Ht. apply lookup_app_Some in Ht as [Ht|[_ Ht]]; [by left|].
    by apply list_lookup_singleton_Some in Ht as [_ Heq].
  - rewrite Htasks in Ht. destruct (decide (t0 = t)) as [->|Hne].
    + rewrite list_lookup_insert_eq in Ht by (by eapply lookup_lt_Some). done.
    + rewrite list_lookup_insert_ne in Ht by done. by left.
  - apply (Hsame t _ Hcore) in Ht. destruct (decide (t0 = t)) as [->|Hne].
    + rewrite list_lookup_insert_eq in Ht by (by eapply lookup_lt_Some). done.
    + rewrite list_lookup_insert_ne in Ht by done. by left.
  - rewrite Htasks in Ht. destruct (decide (t0 = t)) as [->|Hne].
    + rewrite list_lookup_insert_eq in Ht by (by eapply lookup_lt_Some). done.
    + rewrite list_lookup_insert_ne in Ht by done. by left.
  - rewrite Htasks in Ht. destruct (decide (t0 = t)) as [->|Hne].
    + rewrite list_lookup_insert_eq in Ht by (by eapply lookup_lt_Some). done.
    + rewrite list_lookup_insert_ne in Ht by done. by left.
Qed.

(** The entry of goroutine [t] into its run leaves the other goroutines
    that are still to enter theirs where they are. *)
Lemma step_enter_others (w w' : World) (t t' : nat) (ev : event)
    (r r' : StartStepRequest) :
  tasks w !! t = Some (GoStart r) ->
  step w (EnterRun t) = Some (w', ev) ->
  tasks w' !! t' = Some (GoStart r') ->
  t' <> t /\ tasks w !! t' = Some (GoStart r').
Proof.
  intros Ht H Ht'. unfold step in H. rewrite Ht in H.
  assert (Hlt : (t < length (tasks w))%nat) by (by eapply lookup_lt_Some).
  destruct (LogDrone r); simplify_eq; unfold_world;
    (destruct (decide (t = t')) as [->|Hne];
     [by rewrite list_lookup_insert_eq in Ht' by done
     |by rewrite list_lookup_insert_ne in Ht' by done]).
Qed.

Lemma step_log_sound (w w' : World) (a : action) (ev : event) :
  consistent w -> log_sound w -> step w a = Some (w', ev) -> log_sound w'.
Proof.
  intros Hc [Hstarted Hnone] H.
  destruct (step_stepLog_cases _ _ _ _ H) as [Hlog|(t0 & r0 & l & -> & Ht0 & Hdrone & Hlog)].
  - split.
    + intros id Hid. rewrite Hlog in Hid.
      by eapply step_keeps_entry; [exact H|apply Hstarted].
    + intros t r Ht. rewrite Hlog.
      destruct (step_start_origin _ _ _ _ _ _ H Ht) as [Hold|Hnew]; [by eapply Hnone|].
      destruct (stepLog (executor w) !! ID r) as [l|] eqn:Hl; [|done].
      destruct (Hstarted (ID r)) as [s Hs]; [by rewrite Hl|]. congruence.
  - split.
    + intros id Hid. eapply step_keeps_entry; [exact H|].
      rewrite Hlog in Hid. destruct (decide (ID r0 = id)) as [<-|Hne].
      * destruct (runs_running w Hc t0 r0) as (s & Hs & _); [by left|]. by rewrite Hs.
      * rewrite lookup_insert_ne in Hid by done. by apply Hstarted.
    + intros t r Ht. rewrite Hlog.
      destruct (step_start_origin _ _ _ _ _ _ H Ht) as [Hold|Hnew].
      * destruct (decide (ID r0 = ID r)) as [Heq|Hne].
        -- assert (t0 = t) as -> by (eapply (runs_unique w Hc); [by left|by left|done]).
           by destruct (step_enter_others _ _ _ _ _ _ _ Hold H Ht) as [Hne _].
        -- rewrite lookup_insert_ne by done. by eapply Hnone.
      * destruct (runs_running w Hc t0 r0) as (s & Hs & _); [by left|].
        destruct (decide (ID r0 = ID r)) as [Heq|Hne]; [congruence|].
        rewrite lookup_insert_ne by done.
        destruct (stepLog (executor w) !! ID r) as [l'|] eqn:Hl; [|done].
        destruct (Hstarted (ID r)) as [s' Hs']; [by rewrite Hl|]. congruence.
Qed.

Lemma reachable_log_sound (w : World) : reachable w -> log_sound w.
Proof.
  intros (tr & evs & Hrun).
  assert (Hgen : forall tr w0 w1 evs,
            consistent w0 -> log_sound w0 ->
            run_trace w0 tr = Some (w1, evs) -> log_sound w1).
  { clear. induction tr as [|a tr IH]; intros w0 w1 evs Hc Hs H; simpl in H.
    - by simplify_eq.
    - destruct (step w0 a) as [[w2 ev]|] eqn:Hstep; [|done].
      destruct (run_trace w2 tr) as [[w3 evs3]|] eqn:Hrest; [|done]. simplify_eq.
      eapply IH; [|eapply step_log_sound; [exact Hc|exact Hs|exact Hstep]|exact Hrest].
      by eapply step_consistent. }
  eapply Hgen; [apply initial_consistent| |exact Hrun].
  split; [intros id [l Hl]; simpl in Hl; by rewrite lookup_empty in Hl|].
  intros t r Ht. simpl in Ht. by rewrite lookup_nil in Ht.
Qed.

(** A started step without log buffer, for which no goroutine is about to
    register one, stays so. *)
Lemma step_unlogged (w w' : World) (a : action) (ev : event) (id : string) :
  unlogged w id -> step w a = Some (w', ev) -> unlogged w' id.
Proof.
  intros [Hnone Hstarted Hprimary] H.
  assert (Hstart : forall t r, tasks w' !! t = Some (GoStart r) -> ID r = id ->
                     tasks w !! t = Some (GoStart r)).
  { intros t r Ht Hid. destruct (step_start_origin _ _ _ _ _ _ H Ht) as [Hold|Hnew]; [done|].
    rewrite Hid in Hnew. rewrite Hnew in Hstarted. by destruct Hstarted. }
  split.
  - destruct (step_stepLog_cases _ _ _ _ H)
      as [->|(t0 & r0 & l & _ & Ht0 & Hdrone & ->)]; [done|].
    destruct (decide (ID r0 = id)) as [Heq|Hne].
    + rewrite (Hprimary _ _ Ht0 Heq) in Hdrone. discriminate Hdrone.
    + by rewrite lookup_insert_ne.
  - by eapply step_keeps_entry.
  - intros t r Ht Hid. eapply Hprimary; [by apply Hstart|done].
Qed.

Lemma run_trace_unlogged (tr : list action) (w w' : World) (evs : list event)
    (id : string) :
  unlogged w id -> run_trace w tr = Some (w', evs) -> unlogged w' id.
Proof.
  revert w evs. induction tr as [|a tr IH]; intros w evs Hs H; simpl in H.
  - by simplify_eq.
  - destruct (step w a) as [[w1 ev]|] eqn:Hstep; [|done].
    destruct (run_trace w1 tr) as [[w2 evs2]|] eqn:Hrest; [|done]. simplify_eq.
    eauto using step_unlogged.
Qed.

(** After the schedule [Sample.stream_primary_step] the step "s" of the
    primary path is inside its run, the log registry has no entry for it,
    and the [StreamOutput] call has failed, five seconds after it was made,
    with "Step has not started". *)
Lemma primary_step_has_no_log :
  run_trace initial Sample.stream_primary_step
    = Some (Sample.world_after Sample.stream_primary_step,
            [StartReturned "s" None true; Silent; Silent; Silent; Silent;
             StreamFailed (BadRequestError "Step has not started")]) /\
  tasks (Sample.world_after Sample.stream_primary_step) !! 0%nat
    = Some (GoRun (Sample.request "s" 0 false false) None) /\
  stepStatus (executor (Sample.world_after Sample.stream_primary_step)) !! "s"
    = Some running_status /\
  stepLog (executor (Sample.world_after Sample.stream_primary_step)) !! "s" = None.
Proof. repeat split; vm_compute; reflexivity. Qed.

(** C6, as the code has it: when the goroutine of a started step enters its
    run on the drone path, a new log buffer is registered under the
    identifier of the step; it stays registered in every continuation, and
    every lookup of a [StreamOutput] for that identifier then finds it and
    ends the call with the answer of [Subscribe]: the buffered bytes and a
    channel, or the error of [Subscribe].  On the primary path, in every
    schedule, the log registry has no entry for the step when its goroutine
    enters the run and gets none in any continuation, so that every lookup
    of a [StreamOutput] for it fails with "Step has not started" once five
    seconds have passed since the call, and sleeps before. *)
Theorem entering_run_registers_drone_log (w : World) (t : nat) (r : StartStepRequest) :
  tasks w !! t = Some (GoStart r) ->
  exists w' log,
    step w (EnterRun t) = Some (w', Silent) /\
    tasks w' !! t = Some (GoRun r log) /\
    (LogDrone r = true ->
       log = Some (length (step_logs w)) /\
       stepLog (executor w') !! ID r = Some (length (step_logs w)) /\
       step_logs w' !! length (step_logs w) = Some NewStepLog /\
       forall tr w2 evs,
         run_trace w' tr = Some (w2, evs) ->
         log_registered w2 (ID r) /\
         forall t' ctx offset elapsed sub,
           tasks w2 !! t' = Some (StreamLooking ctx (ID r) offset) ->
           exists w3 ev,
             step w2 (StreamLookup t' elapsed sub) = Some (w3, ev) /\
             tasks w3 !! t' = Some Returned /\
             (sub = ErrNil -> exists oldOut chData, ev = StreamReturned oldOut chData) /\
             (sub <> ErrNil -> exists oldOut, ev = StreamAborted oldOut sub)) /\
    (LogDrone r = false ->
       reachable w ->
       log = None /\
       step_logs w' = step_logs w /\
       stepLog (executor w) !! ID r = None /\
       forall tr w2 evs,
         run_trace w' tr = Some (w2, evs) ->
         stepLog (executor w2) !! ID r = None /\
         forall t' ctx offset elapsed sub,
           tasks w2 !! t' = Some (StreamLooking ctx (ID r) offset) ->
           (timeoutDelay <= elapsed ->
              step w2 (StreamLookup t' elapsed sub)
                = Some (set_task t' Returned w2,
                        StreamFailed (BadRequestError "Step has not started"))) /\
           (elapsed < timeoutDelay ->
              step w2 (StreamLookup t' elapsed sub)
                = Some (set_task t' (StreamSleeping ctx (ID r) offset) w2, Silent))).
Proof.
  intros Ht.
  assert (Hlt : (t < length (tasks w))%nat) by (by eapply lookup_lt_Some).
  destruct (step w (EnterRun t)) as [[w' ev]|] eqn:Hstep;
    [|unfold step in Hstep; rewrite Ht in Hstep; by destruct (LogDrone r)].
  pose proof Hstep as Hs. unfold step in Hs. rewrite Ht in Hs.
  destruct (LogDrone r) eqn:Hdrone; injection Hs as <- <-.
  - eexists _, _. split; [reflexivity|]. simpl.
    split; [by apply list_lookup_insert_eq|]. split; [|done]. intros _.
    split; [done|]. split; [by rewrite lookup_insert_eq|].
    assert (Hnew : (step_logs w ++ [NewStepLog]) !! length (step_logs w) = Some NewStepLog).
    { rewrite lookup_app_r by lia.
      by replace (length (step_logs w) - length (step_logs w))%nat with 0%nat by lia. }
    split; [done|]. intros tr w2 evs Hrun.
    assert (Hreg : log_registered w2 (ID r)).
    { eapply run_trace_log_registered; [|exact Hrun].
      exists (length (step_logs w)), NewStepLog. simpl.
      by rewrite lookup_insert_eq. }
    split; [done|]. intros t' ctx offset elapsed sub Ht'. by eapply StreamLookup_finds.
  - eexists _, _. split; [reflexivity|]. simpl.
    split; [by apply list_lookup_insert_eq|]. split; [done|]. intros _ Hreach.
    pose proof (reachable_consistent w Hreach) as Hc.
    pose proof (reachable_log_sound w Hreach) as Hsound.
    assert (Hnone : stepLog (executor w) !! ID r = None)
      by (by eapply (starting_unlogged w Hsound)).
    split; [done|]. split; [done|]. split; [done|]. intros tr w2 evs Hrun.
    assert (Hun : unlogged w2 (ID r)).
    { eapply run_trace_unlogged; [|exact Hrun]. split; simpl.
      - done.
      - destruct (runs_running w Hc t r) as (s & Hs & _); [by left|]. by rewrite Hs.
      - intros t' r' Ht' Hid. destruct (decide (t = t')) as [->|Hne].
        + by rewrite list_lookup_insert_eq in Ht' by done.
        + rewrite list_lookup_insert_ne in Ht' by done.
          exfalso. apply Hne. eapply (runs_unique w Hc); [by left|by left|done]. }
    split; [by apply (unlogged_none w2 (ID r))|].
    intros t' ctx offset elapsed sub Ht'.
    apply StreamLookup_misses; [by apply (unlogged_none w2 (ID r))|done].
Qed.

Lemma entering_run_registers_drone_log_witness :
  (exists w',
     step (Sample.world_after Sample.drone_started) (EnterRun 0) = Some (w', Silent) /\
     stepLog (executor w') !! "s" = Some 0%nat /\
     step_logs w' !! 0%nat = Some NewStepLog) /\
  (exists w' w2 evs,
     step (Sample.world_after Sample.primary_started) (EnterRun 0) = Some (w', Silent) /\
     run_trace w' [EnterRun 1; CallStreamOutput 7 "s" 0] = Some (w2, evs) /\
     stepLog (executor w2) !! "d" = Some 0%nat /\
     stepLog (executor w2) !! "s" = None /\
     step w2 (StreamLookup 2 5000 ErrNil)
       = Some (set_task 2 Returned w2,
               StreamFailed (BadRequestError "Step has not started"))).
Proof.
  split.
  - destruct (entering_run_registers_drone_log
                (Sample.world_after Sample.drone_started) 0
                (Sample.request "s" 0 false true) eq_refl)
      as (w' & log & Hstep & _ & Hdrone & _).
    destruct (Hdrone eq_refl) as (_ & Hreg & Hnew & _).
    exists w'. split; [exact Hstep|]. split; [exact Hreg|exact Hnew].
  - destruct (entering_run_registers_drone_log
                (Sample.world_after Sample.primary_started) 0
                (Sample.request "s" 0 false false) eq_refl)
      as (w' & log & Hstep & _ & _ & Hprimary).
    assert (Hreach : reachable (Sample.world_after Sample.primary_started)).
    { exists Sample.primary_started. eexists. vm_compute. reflexivity. }
    destruct (Hprimary eq_refl Hreach) as (_ & _ & _ & Hlater).
    assert (Hrun : exists w2 evs,
              run_trace w' [EnterRun 1; CallStreamOutput 7 "s" 0] = Some (w2, evs) /\
              tasks w2 !! 2%nat = Some (StreamLooking 7 "s" 0) /\
              stepLog (executor w2) !! "d" = Some 0%nat).
    { vm_compute in Hstep. injection Hstep as <-.
      eexists _, _. split; [|split]; vm_compute; reflexivity. }
    destruct Hrun as (w2 & evs & Hrun & Ht' & Hd).
    destruct (Hlater _ _ _ Hrun) as [Hnone Hlook].
    destruct (Hlook 2%nat 7%nat 0%nat 5000 ErrNil Ht') as [Hfail _].
    assert (Hlate : timeoutDelay <= 5000) by (unfold timeoutDelay; lia).
    exists w', w2, evs. split; [exact Hstep|]. split; [exact Hrun|].
    split; [exact Hd|]. split; [exact Hnone|exact (Hfail Hlate)].
Defined.

(** * Further properties of the executor *)

Ltac effect_cases H :=
  destruct (step_effect _ _ _ _ H) as
    [Hst Hwait Hch Hcore
    |r Hnone Hst Hwait Hch Htasks
    |id0 s0 ctx' Hs0 Hnc Hst Hwait Hch Htasks
    |t0 r log Ht0 Hst Hwait Hch Htasks
    |t0 r log st0 Ht0 Hc0 Hst Hwait Hch Hcore
    |t0 id0 st0 c rest Ht0 Hce Hst Hwait Hch Htasks
    |t0 ctx' c st0 rest Ht0 Hcf Hst Hwait Hch Htasks].

(** ** The status table *)

Lemma step_status_shape (w w' : World) (a : action) (ev : event) :
  (forall id s, stepStatus (executor w) !! id = Some s ->
     s = running_status \/ Status s = Complete) ->
  step w a = Some (w', ev) ->
  forall id s, stepStatus (executor w') !! id = Some s ->
    s = running_status \/ Status s = Complete.
Proof.
  intros Hshape H id s. effect_cases H; rewrite Hst; try apply Hshape.
  - destruct (decide (ID r = id)) as [<-|Hne].
    + rewrite lookup_insert_eq. intros [= <-]. by left.
    + rewrite lookup_insert_ne by done. apply Hshape.
  - destruct (decide (ID r = id)) as [<-|Hne].
    + rewrite lookup_insert_eq. intros [= <-]. by right.
    + rewrite lookup_insert_ne by done. apply Hshape.
Qed.

Lemma run_trace_status_shape (tr : list action) (w w' : World) (evs : list event) :
  (forall id s, stepStatus (executor w) !! id = Some s ->
     s = running_status \/ Status s = Complete) ->
  run_trace w tr = Some (w', evs) ->
  forall id s, stepStatus (executor w') !! id = Some s ->
    s = running_status \/ Status s = Complete.
Proof.
  revert w evs. induction tr as [|a tr IH]; intros w evs Hs H; simpl in H.
  - by simplify_eq.
  - destruct (step w a) as [[w1 ev]|] eqn:Hstep; [|done].
    destruct (run_trace w1 tr) as [[w2 evs2]|] eqn:Hrest; [|done]. simplify_eq.
    eapply IH; [|done]. by eapply step_status_shape.
Qed.

(** X1: in every reachable world a stored status is either the bare
    running record, without any result, or a complete record; the status
    [NotStarted] is never stored. *)
Theorem stored_status_running_or_complete (w : World) (id : string) (s : StepStatus) :
  reachable w ->
  stepStatus (executor w) !! id = Some s ->
  s = running_status \/ Status s = Complete.
Proof.
  intros (tr & evs & Hrun). eapply run_trace_status_shape; [|exact Hrun].
  intros id' s'. simpl. by rewrite lookup_empty.
Qed.

Lemma stored_status_running_or_complete_witness :
  Sample.ok_status = running_status \/ Status Sample.ok_status = Complete.
Proof.
  apply (stored_status_running_or_complete (Sample.world_after Sample2.completed) "s").
  - exists Sample2.completed. eexists. vm_compute. reflexivity.
  - vm_compute. reflexivity.
Defined.

(** A complete entry and the waiter list of its identifier outlive a step
    of a consistent world. *)
Lemma step_complete_frozen (w w' : World) (a : action) (ev : event)
    (id : string) (s : StepStatus) :
  consistent w ->
  stepStatus (executor w) !! id = Some s ->
  Status s = Complete ->
  step w a = Some (w', ev) ->
  stepStatus (executor w') !! id = Some s /\
  stepWaitCh (executor w') !! id = stepWaitCh (executor w) !! id.
Proof.
  intros Hc Hs Hcomp H.
  assert (Hdone : status_is w id Complete) by (by exists s).
  effect_cases H; rewrite Hst, Hwait; try done.
  - split; [|done]. rewrite lookup_insert_ne; [done|]. intros Heq. congruence.
  - split; [done|]. rewrite lookup_insert_ne; [done|]. intros ->. congruence.
  - split; [|done]. rewrite lookup_insert_ne; [done|]. intros <-.
    assert (Hrun : status_is w (ID r) Running).
    { apply (runs_running w Hc t0). right. eauto. }
    by pose proof (status_is_fun _ _ _ _ Hrun Hdone).
Qed.

Lemma run_trace_complete_frozen (tr : list action) (w w' : World) (evs : list event)
    (id : string) (s : StepStatus) :
  consistent w ->
  stepStatus (executor w) !! id = Some s ->
  Status s = Complete ->
  run_trace w tr = Some (w', evs) ->
  stepStatus (executor w') !! id = Some s /\
  stepWaitCh (executor w') !! id = stepWaitCh (executor w) !! id.
Proof.
  revert w evs. induction tr as [|a tr IH]; intros w evs Hc Hs Hcomp H; simpl in H.
  - by simplify_eq.
  - destruct (step w a) as [[w1 ev]|] eqn:Hstep; [|done].
    destruct (run_trace w1 tr) as [[w2 evs2]|] eqn:Hrest; [|done]. simplify_eq.
    destruct (step_complete_frozen _ _ _ _ _ _ Hc Hs Hcomp Hstep) as [Hs1 Hw1].
    destruct (IH w1 evs2 (step_consistent _ _ _ _ Hc Hstep) Hs1 Hcomp Hrest) as [Hs2 Hw2].
    split; [done|]. by rewrite Hw2.
Qed.

(** X2: once the status entry of an identifier is complete in a reachable
    world, no schedule overwrites it: every later world holds the very
    same record under that identifier. *)
Theorem complete_entry_is_final (w w' : World) (tr : list action) (evs : list event)
    (id : string) (s : StepStatus) :
  reachable w ->
  stepStatus (executor w) !! id = Some s ->
  Status s = Complete ->
  run_trace w tr = Some (w', evs) ->
  stepStatus (executor w') !! id = Some s.
Proof.
  intros Hreach Hs Hcomp Hrun.
  by destruct (run_trace_complete_frozen tr w w' evs id s
                 (reachable_consistent w Hreach) Hs Hcomp Hrun).
Qed.

Lemma complete_entry_is_final_witness :
  stepStatus
    (executor (Sample2.run_from (Sample.world_after Sample2.completed) Sample2.late_calls))
    !! "s" = Some Sample.ok_status.
Proof.
  eapply (complete_entry_is_final (Sample.world_after Sample2.completed) _
            Sample2.late_calls _ "s").
  - exists Sample2.completed. eexists. vm_compute. reflexivity.
  - vm_compute. reflexivity.
  - reflexivity.
  - vm_compute. reflexivity.
Defined.

(** X3: once the status entry of an identifier is complete in a reachable
    world, its waiter list is frozen: no [PollStep] registers a channel for
    it any more, and nothing removes the channels that are there. *)
Theorem waiters_frozen_after_completion (w w' : World) (tr : list action)
    (evs : list event) (id : string) (s : StepStatus) :
  reachable w ->
  stepStatus (executor w) !! id = Some s ->
  Status s = Complete ->
  run_trace w tr = Some (w', evs) ->
  stepWaitCh (executor w') !! id = stepWaitCh (executor w) !! id.
Proof.
  intros Hreach Hs Hcomp Hrun.
  by destruct (run_trace_complete_frozen tr w w' evs id s
                 (reachable_consistent w Hreach) Hs Hcomp Hrun).
Qed.

Lemma waiters_frozen_after_completion_witness :
  stepWaitCh
    (executor (Sample2.run_from (Sample.world_after Sample2.polled_returned)
                 Sample2.polls_around_delivery)) !! "s"
    = stepWaitCh (executor (Sample.world_after Sample2.polled_returned)) !! "s".
Proof.
  eapply (waiters_frozen_after_completion
            (Sample.world_after Sample2.polled_returned) _
            Sample2.polls_around_delivery _ "s" Sample.ok_status).
  - exists Sample2.polled_returned. eexists. vm_compute. reflexivity.
  - vm_compute. reflexivity.
  - reflexivity.
  - vm_compute. reflexivity.
Defined.

(** ** Polling and starting *)

(** In a consistent world, a step puts an entry under a new identifier only
    when it is a [StartStep] that launches the goroutine of that identifier. *)
Lemma step_new_entry (w w' : World) (a : action) (ev : event) (id : string) :
  consistent w ->
  step w a = Some (w', ev) ->
  is_Some (stepStatus (executor w') !! id) ->
  is_Some (stepStatus (executor w) !! id) \/ ev = StartReturned id None true.
Proof.
  intros Hc H Hid. step_cases H; unfold_locked; unfold_world; auto.
  - destruct (decide (ID r = id)) as [<-|Hne]; [by right|].
    left. by rewrite lookup_insert_ne in Hid.
  - left. destruct (decide (ID r = id)) as [<-|Hne].
    + match goal with Ht : tasks w !! _ = Some (GoRun r ?lg) |- _ =>
        destruct (runs_running w Hc _ r (or_intror (ex_intro _ lg Ht))) as (s & Hs & _)
      end. eauto.
    + by rewrite lookup_insert_ne in Hid.
  - left. destruct (decide (ID r = id)) as [<-|Hne].
    + match goal with Ht : tasks w !! _ = Some (GoRun r ?lg) |- _ =>
        destruct (runs_running w Hc _ r (or_intror (ex_intro _ lg Ht))) as (s & Hs & _)
      end. eauto.
    + by rewrite lookup_insert_ne in Hid.
Qed.

Lemma run_trace_new_entry (tr : list action) (w w' : World) (evs : list event)
    (id : string) :
  consistent w ->
  run_trace w tr = Some (w', evs) ->
  is_Some (stepStatus (executor w') !! id) ->
  is_Some (stepStatus (executor w) !! id) \/ (1 <= launches id evs)%nat.
Proof.
  revert w evs. induction tr as [|a tr IH]; intros w evs Hc H Hid; simpl in H.
  - simplify_eq. by left.
  - destruct (step w a) as [[w1 ev]|] eqn:Hstep; [|done].
    destruct (run_trace w1 tr) as [[w2 evs2]|] eqn:Hrest; [|done]. simplify_eq.
    destruct (IH w1 evs2 (step_consistent _ _ _ _ Hc Hstep) Hrest Hid) as [H1|Hl].
    + destruct (step_new_entry _ _ _ _ id Hc Hstep H1) as [H0| ->]; [by left|].
      right. simpl. destruct (decide (id = id)); [lia|done].
    + right. simpl. destruct ev as [id' err [|]| | | | | | |]; try done. lia.
Qed.

(** X4: in every schedule, while no [StartStep] has launched a goroutine
    for an identifier, the status table has no entry for it, and [PollStep]
    on it returns the empty response with a bad-request error ("ID needs to
    be set" for the empty identifier, "Step has not started" otherwise)
    and changes nothing. *)
Theorem poll_before_start_is_refused (tr : list action) (w : World) (evs : list event)
    (ctx : nat) (id : string) :
  run_trace initial tr = Some (w, evs) ->
  launches id evs = 0%nat ->
  stepStatus (executor w) !! id = None /\
  step w (CallPollStep ctx id)
    = Some (w, PollReturned id empty_response (Some (BadRequestError (poll_refusal id)))).
Proof.
  intros Hrun Hl.
  assert (Hnone : stepStatus (executor w) !! id = None).
  { destruct (stepStatus (executor w) !! id) as [s|] eqn:Hs; [|done].
    assert (Hsome : is_Some (stepStatus (executor w) !! id)) by eauto.
    destruct (run_trace_new_entry tr initial w evs id initial_consistent Hrun Hsome)
      as [H0|H1].
    - simpl in H0. rewrite lookup_empty in H0. by destruct H0.
    - lia. }
  split; [done|]. unfold step, PollStep, poll_refusal.
  destruct (decide (id = "")); [done|]. by rewrite Hnone.
Qed.

Lemma poll_before_start_is_refused_witness :
  step (Sample.world_after Sample2.completed) (CallPollStep 0 "other")
    = Some (Sample.world_after Sample2.completed,
            PollReturned "other" empty_response
              (Some (BadRequestError "Step has not started"))).
Proof.
  assert (Hrun : exists evs,
            run_trace initial Sample2.completed
              = Some (Sample.world_after Sample2.completed, evs) /\
            launches "other" evs = 0%nat)
    by (eexists; split; vm_compute; reflexivity).
  destruct Hrun as (evs & Hrun & Hl).
  exact (proj2 (poll_before_start_is_refused _ _ _ 0 "other" Hrun Hl)).
Defined.

(** X5: in every schedule, after a [StartStep] for an identifier has
    returned without error, [PollStep] on that identifier is never refused:
    it returns a converted response without error when the entry is
    complete, and otherwise blocks on a new channel. *)
Theorem poll_after_start_is_served (tr : list action) (w : World) (evs : list event)
    (ctx : nat) (id : string) :
  run_trace initial tr = Some (w, evs) ->
  (exists launched, StartReturned id None launched ∈ evs) ->
  exists s, stepStatus (executor w) !! id = Some s /\
    match Status s with
    | Complete =>
        step w (CallPollStep ctx id)
          = Some (set_errors (convertStatus s (errors w)).2 w,
                  PollReturned id (convertStatus s (errors w)).1 None)
    | _ =>
        exists w', step w (CallPollStep ctx id)
                     = Some (w', PollBlocked id (length (tasks w))) /\
                   tasks w' = tasks w ++ [PollWaiting ctx (length (status_chans w))] /\
                   waiters w' id = [length (status_chans w)]
    end.
Proof.
  intros Hrun Hprev.
  destruct (proj2 (run_trace_launches _ _ _ _ id Hrun) Hprev) as [Hne [s Hs]].
  exists s. split; [done|].
  destruct (Status s) eqn:Hstat.
  - unfold step, PollStep. destruct (decide (id = "")); [done|]. rewrite Hs, Hstat.
    eexists. split; [reflexivity|]. split; [done|].
    unfold waiters, register_waiter. simpl.
    destruct (stepWaitCh (executor w) !! id); by rewrite lookup_insert_eq.
  - unfold step, PollStep. destruct (decide (id = "")); [done|]. rewrite Hs, Hstat.
    eexists. split; [reflexivity|]. split; [done|].
    unfold waiters, register_waiter. simpl.
    destruct (stepWaitCh (executor w) !! id); by rewrite lookup_insert_eq.
  - by apply PollStep_complete.
Qed.

Lemma poll_after_start_is_served_witness :
  exists s, stepStatus (executor (Sample.world_after Sample2.completed)) !! "s" = Some s /\
    match Status s with
    | Complete =>
        step (Sample.world_after Sample2.completed) (CallPollStep 0 "s")
          = Some (set_errors
                    (convertStatus s (errors (Sample.world_after Sample2.completed))).2
                    (Sample.world_after Sample2.completed),
                  PollReturned "s"
                    (convertStatus s (errors (Sample.world_after Sample2.completed))).1
                    None)
    | _ =>
        exists w', step (Sample.world_after Sample2.completed) (CallPollStep 0 "s")
                     = Some (w', PollBlocked "s"
                                   (length (tasks (Sample.world_after Sample2.completed)))) /\
                   tasks w' = tasks (Sample.world_after Sample2.completed)
                                ++ [PollWaiting 0
                                      (length (status_chans
                                                 (Sample.world_after Sample2.completed)))] /\
                   waiters w' "s"
                     = [length (status_chans (Sample.world_after Sample2.completed))]
    end.
Proof.
  eapply (poll_after_start_is_served Sample2.completed _ _ 0 "s").
  - vm_compute. reflexivity.
  - exists true. apply list_elem_of_here.
Defined.

(** ** Delivery *)

Lemma step_delivering (w w' : World) (a : action) (ev : event) :
  consistent w -> delivering w -> step w a = Some (w', ev) -> delivering w'.
Proof.
  intros Hc [Huniq Hpend] H. effect_cases H.
  - constructor.
    + intros t1 t2 id st1 chs1 st2 chs2 H1 H2.
      apply (Hcore t1 (GoDeliver id st1 chs1) I) in H1.
      apply (Hcore t2 (GoDeliver id st2 chs2) I) in H2. eauto.
    + intros t id st chs Ht. apply (Hcore t (GoDeliver id st chs) I) in Ht.
      rewrite Hch. eauto.
  - constructor.
    + intros t1 t2 id st1 chs1 st2 chs2 H1 H2.
      rewrite Htasks, lookup_snoc_ne in H1, H2 by done. eauto.
    + intros t id st chs Ht. rewrite Htasks, lookup_snoc_ne in Ht by done.
      rewrite Hch. eauto.
  - constructor.
    + intros t1 t2 id st1 chs1 st2 chs2 H1 H2.
      rewrite Htasks, lookup_snoc_ne in H1, H2 by done. eauto.
    + intros t id st chs Ht. rewrite Htasks, lookup_snoc_ne in Ht by done.
      destruct (Hpend _ _ _ _ Ht) as [Hnd Hempty]. split; [done|].
      intros ch Hin. rewrite Hch. apply lookup_app_l_Some. eauto.
  - constructor.
    + intros t1 t2 id st1 chs1 st2 chs2 H1 H2. rewrite Htasks in H1, H2.
      apply (lookup_insert_task _ _ _ _ _ _ Ht0) in H1 as [[_ [=]]|[_ H1]].
      apply (lookup_insert_task _ _ _ _ _ _ Ht0) in H2 as [[_ [=]]|[_ H2]]. eauto.
    + intros t id st chs Ht. rewrite Htasks in Ht.
      apply (lookup_insert_task _ _ _ _ _ _ Ht0) in Ht as [[_ [=]]|[_ Ht]].
      rewrite Hch. eauto.
  - assert (Hrun : status_is w (ID r) Running).
    { apply (runs_running w Hc t0). right. eauto. }
    assert (Hold : forall t id st chs,
              t <> t0 -> tasks w !! t = Some (GoDeliver id st chs) -> id <> ID r).
    { intros t id st chs _ Ht ->.
      destruct (deliver_complete w Hc _ _ _ _ Ht) as [Hdone _].
      by pose proof (status_is_fun _ _ _ _ Hrun Hdone). }
    constructor.
    + intros t1 t2 id st1 chs1 st2 chs2 H1 H2.
      apply (Hcore t1 (GoDeliver id st1 chs1) I) in H1.
      apply (Hcore t2 (GoDeliver id st2 chs2) I) in H2.
      apply (lookup_insert_task _ _ _ _ _ _ Ht0) in H1 as [[-> E1]|[Hne1 H1]];
        apply (lookup_insert_task _ _ _ _ _ _ Ht0) in H2 as [[-> E2]|[Hne2 H2]];
        try done.
      * injection E1 as -> _ _. by destruct (Hold _ _ _ _ Hne2 H2).
      * injection E2 as -> _ _. by destruct (Hold _ _ _ _ Hne1 H1).
      * eauto.
    + intros t id st chs Ht. apply (Hcore t (GoDeliver id st chs) I) in Ht.
      rewrite Hch.
      apply (lookup_insert_task _ _ _ _ _ _ Ht0) in Ht as [[-> [= -> -> ->]]|[_ Ht]].
      * split; [apply (waiters_nodup w Hc)|].
        intros ch Hin. by apply (waiting_empty w Hc (ID r)).
      * eauto.
  - destruct (Hpend _ _ _ _ Ht0) as [Hnd0 Hempty0].
    apply NoDup_cons in Hnd0 as [Hnotin Hnd0].
    destruct (deliver_complete w Hc _ _ _ _ Ht0) as [_ Hsub0].
    constructor.
    + intros t1 t2 id st1 chs1 st2 chs2 H1 H2. rewrite Htasks in H1, H2.
      apply (lookup_insert_task _ _ _ _ _ _ Ht0) in H1 as [[-> E1]|[Hne1 H1]];
        apply (lookup_insert_task _ _ _ _ _ _ Ht0) in H2 as [[-> E2]|[Hne2 H2]];
        try done.
      * injection E1 as -> _ _. symmetry. by apply (Huniq t2 t0 _ _ _ _ _ H2 Ht0).
      * injection E2 as -> _ _. by apply (Huniq t1 t0 _ _ _ _ _ H1 Ht0).
      * eauto.
    + intros t id st chs Ht. rewrite Htasks in Ht. rewrite Hch.
      apply (lookup_insert_task _ _ _ _ _ _ Ht0) in Ht as [[-> [= -> -> ->]]|[Hne Ht]].
      * split; [done|]. intros ch Hin.
        rewrite list_lookup_insert_ne by (intros ->; done).
        apply Hempty0. by right.
      * destruct (Hpend _ _ _ _ Ht) as [Hnd Hempty]. split; [done|].
        intros ch Hin. rewrite list_lookup_insert_ne; [by apply Hempty|].
        intros ->. apply Hne.
        destruct (deliver_complete w Hc _ _ _ _ Ht) as [_ Hsub].
        assert (id = id0) as ->.
        { apply (waiters_disjoint w Hc id id0 ch); [by apply Hsub|].
          apply Hsub0. by left. }
        by apply (Huniq t t0 _ _ _ _ _ Ht Ht0).
  - constructor.
    + intros t1 t2 id st1 chs1 st2 chs2 H1 H2. rewrite Htasks in H1, H2.
      apply (lookup_insert_task _ _ _ _ _ _ Ht0) in H1 as [[_ [=]]|[_ H1]].
      apply (lookup_insert_task _ _ _ _ _ _ Ht0) in H2 as [[_ [=]]|[_ H2]]. eauto.
    + intros t id st chs Ht. rewrite Htasks in Ht. rewrite Hch.
      apply (lookup_insert_task _ _ _ _ _ _ Ht0) in Ht as [[_ [=]]|[_ Ht]].
      destruct (Hpend _ _ _ _ Ht) as [Hnd Hempty]. split; [done|].
      intros ch Hin. rewrite list_lookup_insert_ne; [by apply Hempty|].
      intros ->. pose proof (Hempty _ Hin). congruence.
Qed.

Lemma reachable_delivering (w : World) : reachable w -> delivering w.
Proof.
  intros (tr & evs & Hrun).
  assert (Hgen : forall tr w0 w1 evs,
            consistent w0 -> delivering w0 ->
            run_trace w0 tr = Some (w1, evs) -> delivering w1).
  { clear. induction tr as [|a tr IH]; intros w0 w1 evs Hc Hd H; simpl in H.
    - by simplify_eq.
    - destruct (step w0 a) as [[w2 ev]|] eqn:Hstep; [|done].
      destruct (run_trace w2 tr) as [[w3 evs3]|] eqn:Hrest; [|done]. simplify_eq.
      eapply IH; [| |exact Hrest].
      + by eapply step_consistent.
      + by eapply step_delivering. }
  eapply Hgen; [apply initial_consistent| |exact Hrun].
  constructor; simpl; intros; done.
Qed.

(** X6: in every reachable world, whatever has been scheduled in between,
    the next send of a goroutine in its loop over the channels does not
    block: the channel is empty, the send puts the status on it, and the
    loop goes on with the remaining channels. *)
Theorem delivery_never_blocks (w : World) (t : nat) (id : string) (st : StepStatus)
    (ch : nat) (rest : list nat) :
  reachable w ->
  tasks w !! t = Some (GoDeliver id st (ch :: rest)) ->
  status_chans w !! ch = Some [] /\
  exists w',
    step w (Send t) = Some (w', Silent) /\
    status_chans w' !! ch = Some [st] /\
    tasks w' !! t = Some (GoDeliver id st rest) /\
    executor w' = executor w.
Proof.
  intros Hreach Ht.
  destruct (deliver_pending w (reachable_delivering w Hreach) _ _ _ _ Ht) as [_ Hempty].
  assert (Hch : status_chans w !! ch = Some []) by (apply Hempty; by left).
  split; [done|]. unfold step. rewrite Ht, Hch. eexists. split; [reflexivity|].
  simpl. split; [|split; [|done]].
  - apply list_lookup_insert_eq. by eapply lookup_lt_Some.
  - apply list_lookup_insert_eq. by eapply lookup_lt_Some.
Qed.

Lemma delivery_never_blocks_witness :
  exists w',
    step (Sample.world_after Sample2.polled_returned) (Send 0) = Some (w', Silent) /\
    status_chans w' !! 0%nat = Some [Sample.ok_status].
Proof.
  destruct (delivery_never_blocks (Sample.world_after Sample2.polled_returned) 0 "s"
              Sample.ok_status 0 []) as (_ & w' & Hstep & Hch & _).
  - exists Sample2.polled_returned. eexists. vm_compute. reflexivity.
  - vm_compute. reflexivity.
  - exists w'. split; [exact Hstep|exact Hch].
Defined.

(** ** The registries *)

Lemma step_registries_grow (w w' : World) (a : action) (ev : event) (id : string) :
  step w a = Some (w', ev) ->
  (is_Some (stepStatus (executor w) !! id) -> is_Some (stepStatus (executor w') !! id)) /\
  (is_Some (stepLog (executor w) !! id) -> is_Some (stepLog (executor w') !! id)) /\
  (is_Some (stepWaitCh (executor w) !! id) -> is_Some (stepWaitCh (executor w') !! id)).
Proof.
  intros H. split; [by apply (step_keeps_entry w w' a ev)|]. split.
  - destruct (enters_run a) eqn:Ha.
    + destruct a; try discriminate Ha. unfold step in H.
      repeat (case_match; try discriminate); simplify_eq; simpl; [|done].
      intros Hid. destruct (decide (ID r = id)) as [<-|Hne].
      * rewrite lookup_insert_eq. eauto.
      * by rewrite lookup_insert_ne.
    + by rewrite (step_stepLog w w' a ev Ha H).
  - effect_cases H; rewrite Hwait; try done.
    intros Hid. destruct (decide (id0 = id)) as [<-|Hne].
    + rewrite lookup_insert_eq. eauto.
    + by rewrite lookup_insert_ne.
Qed.

(** X7: no schedule removes an entry from any of the three registries: the
    identifiers of the status table, of the log registry and of the
    wait-channel registry only grow. *)
Theorem registries_only_grow (tr : list action) (w w' : World) (evs : list event) :
  run_trace w tr = Some (w', evs) ->
  dom (stepStatus (executor w)) ⊆ dom (stepStatus (executor w')) /\
  dom (stepLog (executor w)) ⊆ dom (stepLog (executor w')) /\
  dom (stepWaitCh (executor w)) ⊆ dom (stepWaitCh (executor w')).
Proof.
  revert w evs. induction tr as [|a tr IH]; intros w evs H; simpl in H.
  - by simplify_eq.
  - destruct (step w a) as [[w1 ev]|] eqn:Hstep; [|done].
    destruct (run_trace w1 tr) as [[w2 evs2]|] eqn:Hrest; [|done]. simplify_eq.
    destruct (IH _ _ Hrest) as (IH1 & IH2 & IH3).
    repeat split; intros id Hid; [apply IH1|apply IH2|apply IH3];
      apply elem_of_dom; apply elem_of_dom in Hid;
      by apply (step_registries_grow w w1 a ev id Hstep).
Qed.

Lemma registries_only_grow_witness :
  dom (stepStatus (executor (Sample.world_after Sample2.polled_returned)))
    ⊆ dom (stepStatus
             (executor (Sample2.run_from (Sample.world_after Sample2.polled_returned)
                          Sample2.polls_around_delivery))) /\
  dom (stepWaitCh (executor (Sample.world_after Sample2.polled_returned)))
    ⊆ dom (stepWaitCh
             (executor (Sample2.run_from (Sample.world_after Sample2.polled_returned)
                          Sample2.polls_around_delivery))).
Proof.
  destruct (registries_only_grow Sample2.polls_around_delivery
              (Sample.world_after Sample2.polled_returned)
              (Sample2.run_from (Sample.world_after Sample2.polled_returned)
                 Sample2.polls_around_delivery)
              [PollReturned "s" (convertStatus Sample.ok_status []).1 None; Silent;
               PollReturned "s" (convertStatus Sample.ok_status []).1 None])
    as (H1 & _ & H3).
  - vm_compute. reflexivity.
  - split; [exact H1|exact H3].
Defined.

(** ** Observers *)



(** * Further properties of a run *)

(** ** Detached steps *)

(** X9: a detached step, on either path, is reported at once as not
    exited, without error, output or telemetry, whatever the engine, the
    context and the log writer answer; its poll response says not exited,
    exit code 0 and no error. *)
Theorem detached_step_reports_not_exited (r : StartStepRequest) (env : StepEnv)
    (h h2 : heap) :
  Detach r = true ->
  executeStep r env h
    = (mkRunResult (Some not_exited) None None None "" None ErrNil, h) /\
  convertStatus (complete_status (executeStep r env h).1) h2
    = ({| rExited := false; rExitCode := 0; rError := ""; rOOMKilled := false;
          rOutputs := None; rArtifact := None; rOutputV2 := None;
          rOptimizationState := ""; rTelemetry := None |}, h2).
Proof.
  intros Hd.
  assert (He : executeStep r env h
               = (mkRunResult (Some not_exited) None None None "" None ErrNil, h)).
  { unfold executeStep, executeStepDrone. rewrite Hd. by destruct (LogDrone r). }
  split; [done|]. by rewrite He.
Qed.

Lemma detached_step_reports_not_exited_witness :
  executeStep (Sample.request "s" 1 true false) Sample.env_deadline []
    = (mkRunResult (Some not_exited) None None None "" None ErrNil, []).
Proof.
  exact (proj1 (detached_step_reports_not_exited
                  (Sample.request "s" 1 true false) Sample.env_deadline [] [] eq_refl)).
Defined.

(** ** The drone path *)

(** X10: on the drone path the values returned depend on nothing but the
    answer of the plain run strategy and the fate of the context: the kind
    of the request, the two test strategies and the log writer play no
    part, no output, artifact or telemetry is returned, and no error object
    is made. *)
Theorem drone_path_runs_plain_step (r : StartStepRequest) (env env' : StepEnv)
    (k : StepKind) (h : heap) :
  LogDrone r = true ->
  executeRunStep (engine env) = executeRunStep (engine env') ->
  ctx_fate env = ctx_fate env' ->
  executeStep (set_Kind k r) env' h = executeStep r env h /\
  (executeStep r env h).2 = h /\
  res_outputs (executeStep r env h).1 = None /\
  res_artifact (executeStep r env h).1 = None /\
  res_outputV2 (executeStep r env h).1 = None /\
  res_telemetry (executeStep r env h).1 = None.
Proof.
  intros Hdrone Heng Hctx.
  unfold executeStep, executeStepDrone, drone_ctx, run. simpl.
  rewrite Hdrone, Heng, Hctx.
  destruct (Detach r); [done|].
  destruct (ctx_Err (if 0 <? Timeout r then WithTimeout (ctx_fate env') else WithCancel))
    as [|[]|]; try done;
    destruct (negb (is_nil (res_err (executeRunStep (engine env'))))); done.
Qed.

Lemma drone_path_runs_plain_step_witness :
  executeStep (set_Kind RunTestsV2 (Sample.request "s" 0 false true)) Sample.env_exit1_close_failed []
    = executeStep (Sample.request "s" 0 false true)
        {| engine := {| executeRunStep := Sample.exits 1 false ErrNil;
                        executeRunTestsV2Step := Sample.exits 9 true Sample.run_failed;
                        executeRunTestStep := Sample.exits 9 true Sample.run_failed |};
           ctx_fate := Alive; wc_Close := ErrNil; wc_Error := ErrNil |} [].
Proof.
  exact (proj1 (drone_path_runs_plain_step (Sample.request "s" 0 false true)
                  {| engine := {| executeRunStep := Sample.exits 1 false ErrNil;
                                  executeRunTestsV2Step := Sample.exits 9 true Sample.run_failed;
                                  executeRunTestStep := Sample.exits 9 true Sample.run_failed |};
                     ctx_fate := Alive; wc_Close := ErrNil; wc_Error := ErrNil |}
                  Sample.env_exit1_close_failed RunTestsV2 [] eq_refl eq_refl eq_refl)).
Defined.

(** X11: on the drone path, when the step is not detached, a process state
    and an error are never returned together: with an ended context the
    error is [ctx.Err()], otherwise it is the error of the run as it
    is, and in both cases the state is nil; the state of the run is
    returned only without error. *)
Theorem drone_path_state_or_error (r : StartStepRequest) (env : StepEnv) (h : heap) :
  LogDrone r = true ->
  Detach r = false ->
  let res := (executeStep r env h).1 in
  let run_res := executeRunStep (engine env) in
  (ctx_Err (drone_ctx r env) <> ErrNil ->
     res_err res = ctx_Err (drone_ctx r env) /\ res_state res = None) /\
  (ctx_Err (drone_ctx r env) = ErrNil -> res_err run_res <> ErrNil ->
     res_err res = res_err run_res /\ res_state res = None) /\
  (ctx_Err (drone_ctx r env) = ErrNil -> res_err run_res = ErrNil ->
     res_err res = ErrNil /\ res_state res = res_state run_res).
Proof.
  intros Hdrone Hdetach. simpl.
  unfold executeStep, executeStepDrone, run. simpl. rewrite Hdrone, Hdetach.
  destruct (drone_ctx r env) as [| |[]]; simpl;
    destruct (res_err (executeRunStep (engine env))); simpl; repeat split; try done.
Qed.

Lemma drone_path_state_or_error_witness :
  res_err (executeStep (Sample.request "s" 1 false true) Sample.env_deadline []).1
    = ErrPlain DeadlineExceeded /\
  res_state (executeStep (Sample.request "s" 1 false true) Sample.env_deadline []).1 = None.
Proof.
  apply (proj1 (drone_path_state_or_error (Sample.request "s" 1 false true)
                  Sample.env_deadline [] eq_refl eq_refl)).
  discriminate.
Defined.

(** ** The primary path *)

Lemma AppendTo_is_multi (err e : error) (h : heap) :
  is_nil (AppendTo err e h).1 = false.
Proof. unfold AppendTo. by destruct (Append err [e] h). Qed.

(** One conditional [result = multierror.Append(result, err)]. *)
Lemma stage_is_nil (b : bool) (x y : error) (h : heap) :
  is_nil ((if b then AppendTo x y else mret x) h).1 = negb b && is_nil x.
Proof. destruct b; simpl; [apply AppendTo_is_multi|done]. Qed.

Lemma is_nil_true (e : error) : is_nil e = true <-> e = ErrNil.
Proof. by destruct e. Qed.

(** X12: on the primary path, for a step that is not detached, the error
    returned is nil exactly when the run returned no error, the writer
    closed without error, the context has not ended, and the process did
    not exit with a nonzero code while the writer held an error. *)
Theorem executeStep_no_error_iff (r : StartStepRequest) (env : StepEnv) (h : heap) :
  LogDrone r = false ->
  Detach r = false ->
  res_err (executeStep r env h).1 = ErrNil <->
    res_err (run (engine env) r) = ErrNil /\
    wc_Close env = ErrNil /\
    ctx_Err (step_ctx r env) = ErrNil /\
    (forall st, res_state (run (engine env) r) = Some st ->
       ExitCode st <> 0 -> wc_Error env = ErrNil).
Proof.
  intros Hdrone Hdetach. unfold executeStep. rewrite Hdrone, Hdetach.
  cbv zeta. unfold mbind, M_bind.
  set (re := res_err (run (engine env) r)).
  set (ce := wc_Close env).
  pose proof (stage_is_nil (negb (is_nil re)) ErrNil re h) as H1.
  destruct ((if negb (is_nil re) then AppendTo ErrNil re else mret ErrNil) h)
    as [e1 h1]. simpl in H1.
  pose proof (stage_is_nil (negb (is_nil ce)) e1 ce h1) as H2.
  destruct ((if negb (is_nil ce) then AppendTo e1 ce else mret e1) h1)
    as [e2 h2]. simpl in H2.
  rewrite negb_involutive, andb_true_r in H1. rewrite negb_involutive, H1 in H2.
  destruct (ctx_Err (step_ctx r env)) as [|[| |msg]|p] eqn:Hctx.
  2, 3: simpl; split; [discriminate|by intros (_ & _ & ? & _)].
  - destruct (res_state (run (engine env) r)) as [st|]; simpl.
    + pose proof (stage_is_nil (negb (ExitCode st =? 0) && negb (is_nil (wc_Error env)))
                    e2 ce h2) as H3.
      destruct ((if negb (ExitCode st =? 0) && negb (is_nil (wc_Error env))
                 then AppendTo e2 ce else mret e2) h2) as [e3 h3]. simpl in *.
      rewrite <- !is_nil_true, H3, H2, !andb_true_iff, negb_true_iff, andb_false_iff,
        !negb_false_iff, Z.eqb_eq.
      split.
      * intros (Hcond & Hc & Hr). repeat split; try done.
        intros st' [= <-] Hnz. apply is_nil_true. destruct Hcond; [lia|done].
      * intros (Hr & Hc & _ & Hw). repeat split; try done.
        destruct (decide (ExitCode st = 0)); [by left|right].
        apply is_nil_true. by apply (Hw st).
    + simpl. rewrite <- !is_nil_true, H2, andb_true_iff. split.
      * intros [Hc Hr]. repeat split; done.
      * intros (Hr & Hc & _). done.
  - unfold ctx_Err in Hctx. destruct (step_ctx r env) as [| |[]]; discriminate.
  - unfold ctx_Err in Hctx. destruct (step_ctx r env) as [| |[]]; discriminate.
Qed.

Lemma executeStep_no_error_iff_witness :
  res_err (executeStep (Sample.request "s" 0 false false) Sample.env_ok []).1 = ErrNil.
Proof.
  apply (proj2 (executeStep_no_error_iff (Sample.request "s" 0 false false)
                  Sample.env_ok [] eq_refl eq_refl)).
  repeat split; reflexivity.
Defined.

(** X13: on the primary path, a step whose only failure is a nonzero exit
    code, without OOM kill, is stored without step error; its poll response
    carries the exit code of the process and the error text of the single
    cause "exit status N". *)
Theorem nonzero_exit_is_reported (r : StartStepRequest) (env : StepEnv) (st : State)
    (h h2 : heap) :
  LogDrone r = false ->
  Detach r = false ->
  ctx_Err (step_ctx r env) = ErrNil ->
  res_err (run (engine env) r) = ErrNil ->
  wc_Close env = ErrNil ->
  wc_Error env = ErrNil ->
  res_state (run (engine env) r) = Some st ->
  ExitCode st <> 0 ->
  OOMKilled st = false ->
  let resp := (convertStatus (complete_status (executeStep r env h).1) h2).1 in
  res_err (executeStep r env h).1 = ErrNil /\
  (executeStep r env h).2 = h /\
  rExitCode resp = ExitCode st /\
  rExited resp = Exited st /\
  rError resp = ListFormatFunc [Errorf ("exit status " +:+ pretty (ExitCode st))].
Proof.
  intros Hdrone Hdetach Hctx Hre Hce Hwe Hst Hnz Hoom. simpl.
  assert (Hz : (ExitCode st =? 0) = false) by (apply Z.eqb_neq; lia).
  assert (He : executeStep r env h
               = (mkRunResult (Some st) (res_outputs (run (engine env) r))
                    (res_artifact (run (engine env) r)) (res_outputV2 (run (engine env) r))
                    (res_optimizationState (run (engine env) r))
                    (res_telemetry (run (engine env) r)) ErrNil, h)).
  { unfold executeStep. rewrite Hdrone, Hdetach, Hctx, Hre, Hce, Hst. unfold_M. simpl.
    by rewrite Hz, Hwe. }
  rewrite He. simpl. split; [done|]. split; [done|].
  unfold convertStatus. simpl. rewrite Hoom, Hz. unfold_M. simpl.
  split; [done|]. split; [done|].
  rewrite Errors_insert_eq by (rewrite length_app; simpl; lia).
  by rewrite Errors_app_new.
Qed.

Lemma nonzero_exit_is_reported_witness :
  rExitCode (convertStatus
               (complete_status
                  (executeStep (Sample.request "s" 0 false false) Sample2.env_exit2 []).1)
               []).1 = 2.
Proof.
  apply (nonzero_exit_is_reported (Sample.request "s" 0 false false) Sample2.env_exit2
           {| ExitCode := 2; Exited := true; OOMKilled := false |} [] []);
    try reflexivity.
  discriminate.
Defined.

(** X14: on the primary path, when the process exits with a nonzero code
    and the writer holds an error although it closed without one, the step
    error is a [*multierror.Error] without any cause; being non-nil, it
    forces the exit code of the poll response to 255, while the error text
    names the exit status alone. *)
Theorem writer_error_masks_exit_code (r : StartStepRequest) (env : StepEnv) (st : State)
    (h : heap) :
  LogDrone r = false ->
  Detach r = false ->
  ctx_Err (step_ctx r env) = ErrNil ->
  res_err (run (engine env) r) = ErrNil ->
  wc_Close env = ErrNil ->
  wc_Error env <> ErrNil ->
  res_state (run (engine env) r) = Some st ->
  ExitCode st <> 0 ->
  OOMKilled st = false ->
  let res := (executeStep r env h).1 in
  let h1 := (executeStep r env h).2 in
  let resp := (convertStatus (complete_status res) h1).1 in
  res_err res = ErrMulti (length h) /\
  Errors h1 (length h) = [] /\
  rExitCode resp = 255 /\
  rError resp = ListFormatFunc [Errorf ("exit status " +:+ pretty (ExitCode st))].
Proof.
  intros Hdrone Hdetach Hctx Hre Hce Hwe Hst Hnz Hoom. simpl.
  assert (Hz : (ExitCode st =? 0) = false) by (apply Z.eqb_neq; lia).
  assert (Hw : is_nil (wc_Error env) = false) by (by destruct (wc_Error env)).
  assert (He : executeStep r env h
               = (mkRunResult (Some st) (res_outputs (run (engine env) r))
                    (res_artifact (run (engine env) r)) (res_outputV2 (run (engine env) r))
                    (res_optimizationState (run (engine env) r))
                    (res_telemetry (run (engine env) r)) (ErrMulti (length h)),
                  h ++ [[]])).
  { unfold executeStep. rewrite Hdrone, Hdetach, Hctx, Hre, Hce, Hst. unfold_M. simpl.
    by rewrite Hz, Hw. }
  rewrite He. simpl. split; [done|]. split; [apply Errors_app_new|].
  unfold convertStatus. simpl. rewrite Hoom, Hz. unfold_M. simpl.
  split; [done|].
  rewrite Errors_insert_eq by (rewrite length_app; simpl; lia).
  by rewrite Errors_app_new.
Qed.

Lemma writer_error_masks_exit_code_witness :
  rExitCode
    (convertStatus
       (complete_status
          (executeStep (Sample.request "s" 0 false false) Sample2.env_exit2_writer_error []).1)
       (executeStep (Sample.request "s" 0 false false) Sample2.env_exit2_writer_error []).2).1
    = 255.
Proof.
  apply (writer_error_masks_exit_code (Sample.request "s" 0 false false)
           Sample2.env_exit2_writer_error
           {| ExitCode := 2; Exited := true; OOMKilled := false |} []);
    try reflexivity; discriminate.
Defined.

(** X15: on the primary path, within the deadline, the outputs, the
    artifact, the v2 outputs, the optimization state and the telemetry of
    the run reach the poll response unchanged, and so do the exited and
    OOM flags of the process state, whatever errors the run and the writer
    report. *)
Theorem results_reach_the_response (r : StartStepRequest) (env : StepEnv) (h h2 : heap) :
  LogDrone r = false ->
  Detach r = false ->
  ctx_Err (step_ctx r env) = ErrNil ->
  let res := run (engine env) r in
  let resp := (convertStatus (complete_status (executeStep r env h).1) h2).1 in
  rOutputs resp = res_outputs res /\
  rArtifact resp = res_artifact res /\
  rOutputV2 resp = res_outputV2 res /\
  rOptimizationState resp = res_optimizationState res /\
  rTelemetry resp = res_telemetry res /\
  rExited resp = from_option Exited true (res_state res) /\
  rOOMKilled resp = from_option OOMKilled false (res_state res).
Proof.
  intros Hdrone Hdetach Hctx. simpl.
  unfold executeStep. rewrite Hdrone, Hdetach, Hctx. cbv zeta. unfold mbind, M_bind.
  destruct ((if negb (is_nil (res_err (run (engine env) r)))
             then AppendTo ErrNil (res_err (run (engine env) r)) else mret ErrNil) h)
    as [e1 h1].
  destruct ((if negb (is_nil (wc_Close env)) then AppendTo e1 (wc_Close env)
             else mret e1) h1) as [e2 h3].
  destruct (res_state (run (engine env) r)) as [st|] eqn:Hst.
  - destruct ((if negb (ExitCode st =? 0) && negb (is_nil (wc_Error env))
               then AppendTo e2 (wc_Close env) else mret e2) h3) as [e3 h4].
    unfold convertStatus, complete_status. simpl. unfold_M. simpl.
    destruct (if OOMKilled st then _ else _) as [e4 h5]. simpl.
    by destruct (if is_nil e4 then _ else _).
  - unfold convertStatus, complete_status. simpl. unfold_M. simpl.
    by destruct (if is_nil e2 then _ else _).
Qed.

Lemma results_reach_the_response_witness :
  rOutputs (convertStatus
              (complete_status
                 (executeStep (Sample.request "s" 0 false false) Sample.env_both_failed []).1)
              []).1 = Some {[ "k" := "v" ]}.
Proof.
  exact (proj1 (results_reach_the_response (Sample.request "s" 0 false false)
                  Sample.env_both_failed [] [] eq_refl eq_refl eq_refl)).
Defined.

(** ** Error objects *)

Lemma append_one_other (p q : nat) (h : heap) (e : error) :
  q <> p -> append_one p h e !! q = h !! q.
Proof.
  intros Hne. unfold append_one. destruct e; try done;
    by rewrite list_lookup_insert_ne.
Qed.

(** An append whose target is nil or an object allocated after [h0] leaves
    the objects of [h0] alone, and returns an object allocated after [h0]. *)
Lemma AppendTo_keeps_old (h0 hi : heap) (x y : error) :
  (length h0 <= length hi)%nat ->
  (forall q, (q < length h0)%nat -> hi !! q = h0 !! q) ->
  x = ErrNil \/ (exists p, x = ErrMulti p /\ (length h0 <= p)%nat) ->
  (length h0 <= length (AppendTo x y hi).2)%nat /\
  (forall q, (q < length h0)%nat -> (AppendTo x y hi).2 !! q = h0 !! q) /\
  exists p, (AppendTo x y hi).1 = ErrMulti p /\ (length h0 <= p)%nat.
Proof.
  intros Hlen Hold [->|(p & -> & Hp)].
  - unfold AppendTo, Append. simpl. split; [|split].
    + rewrite append_one_length, length_app. lia.
    + intros q Hq. rewrite append_one_other by lia.
      rewrite lookup_app_l by lia. by apply Hold.
    + exists (length hi). split; [done|lia].
  - unfold AppendTo, Append. simpl. split; [|split].
    + rewrite append_one_length. lia.
    + intros q Hq. rewrite append_one_other by lia. by apply Hold.
    + exists p. split; [done|lia].
Qed.

Lemma stage_keeps_old (h0 hi : heap) (b : bool) (x y : error) :
  (length h0 <= length hi)%nat ->
  (forall q, (q < length h0)%nat -> hi !! q = h0 !! q) ->
  x = ErrNil \/ (exists p, x = ErrMulti p /\ (length h0 <= p)%nat) ->
  let s := (if b then AppendTo x y else mret x) hi in
  (length h0 <= length s.2)%nat /\
  (forall q, (q < length h0)%nat -> s.2 !! q = h0 !! q) /\
  (s.1 = ErrNil \/ exists p, s.1 = ErrMulti p /\ (length h0 <= p)%nat).
Proof.
  intros Hlen Hold Hx. destruct b; simpl.
  - destruct (AppendTo_keeps_old h0 hi x y Hlen Hold Hx) as (H1 & H2 & H3). auto.
  - auto.
Qed.

(** X16: [executeStep] never changes an error object that existed before
    it ran, such as the objects behind the errors of the engine and of the
    writer: it appends only to the aggregate it has allocated itself. *)
Theorem executeStep_keeps_error_objects (r : StartStepRequest) (env : StepEnv)
    (h : heap) (q : nat) :
  (q < length h)%nat ->
  (executeStep r env h).2 !! q = h !! q.
Proof.
  intros Hq. unfold executeStep.
  destruct (LogDrone r); [by destruct (executeStepDrone r env)|].
  destruct (Detach r); [done|].
  cbv zeta. unfold mbind, M_bind.
  set (re := res_err (run (engine env) r)).
  set (ce := wc_Close env).
  pose proof (stage_keeps_old h h (negb (is_nil re)) ErrNil re (le_n _)
                (fun _ _ => eq_refl) (or_introl eq_refl)) as (L1 & O1 & E1).
  destruct ((if negb (is_nil re) then AppendTo ErrNil re else mret ErrNil) h)
    as [e1 h1]. simpl in L1, O1, E1.
  pose proof (stage_keeps_old h h1 (negb (is_nil ce)) e1 ce L1 O1 E1) as (L2 & O2 & E2).
  destruct ((if negb (is_nil ce) then AppendTo e1 ce else mret e1) h1)
    as [e2 h2]. simpl in L2, O2, E2.
  destruct (ctx_Err (step_ctx r env)) as [|[| |msg]|p]; simpl; try by apply O2.
  - destruct (res_state (run (engine env) r)) as [st|]; simpl; [|by apply O2].
    pose proof (stage_keeps_old h h2
                  (negb (ExitCode st =? 0) && negb (is_nil (wc_Error env)))
                  e2 ce L2 O2 E2) as (_ & O3 & _).
    destruct ((if negb (ExitCode st =? 0) && negb (is_nil (wc_Error env))
               then AppendTo e2 ce else mret e2) h2) as [e3 h3]. by apply O3.
  - destruct (res_state (run (engine env) r)) as [st|]; simpl; [|by apply O2].
    pose proof (stage_keeps_old h h2
                  (negb (ExitCode st =? 0) && negb (is_nil (wc_Error env)))
                  e2 ce L2 O2 E2) as (_ & O3 & _).
    destruct ((if negb (ExitCode st =? 0) && negb (is_nil (wc_Error env))
               then AppendTo e2 ce else mret e2) h2) as [e3 h3]. by apply O3.
  - destruct (res_state (run (engine env) r)) as [st|]; simpl; [|by apply O2].
    pose proof (stage_keeps_old h h2
                  (negb (ExitCode st =? 0) && negb (is_nil (wc_Error env)))
                  e2 ce L2 O2 E2) as (_ & O3 & _).
    destruct ((if negb (ExitCode st =? 0) && negb (is_nil (wc_Error env))
               then AppendTo e2 ce else mret e2) h2) as [e3 h3]. by apply O3.
Qed.

Lemma executeStep_keeps_error_objects_witness :
  (executeStep (Sample.request "s" 0 false false)
     {| engine := Sample.engine_with (Sample.exits 3 false (ErrMulti 0));
        ctx_fate := Alive; wc_Close := ErrMulti 0; wc_Error := ErrMulti 0 |}
     [[Errorf "engine failed"]]).2 !! 0%nat
    = Some [Errorf "engine failed"].
Proof.
  apply (executeStep_keeps_error_objects (Sample.request "s" 0 false false)
           {| engine := Sample.engine_with (Sample.exits 3 false (ErrMulti 0));
              ctx_fate := Alive; wc_Close := ErrMulti 0; wc_Error := ErrMulti 0 |}
           [[Errorf "engine failed"]] 0).
  simpl. lia.
Defined.

(** The text of an aggregate made from an error that is not one. *)
Lemma AppendTo_text (err : error) (c : plain_error) (h : heap) :
  is_multi err = false ->
  is_nil (AppendTo err (ErrPlain c) h).1 = false /\
  Error_text (AppendTo err (ErrPlain c) h).2 (AppendTo err (ErrPlain c) h).1
    = ListFormatFunc (causes [] err ++ [c]).
Proof.
  intros Hm. split; [apply AppendTo_is_multi|].
  assert (Hv : valid h err) by (by destruct err).
  destruct (AppendTo_causes h err (ErrPlain c) Hv I) as (p & Hp & _ & Hcell).
  rewrite Hp. simpl. rewrite Hcell. by destruct err.
Qed.

(** The response converted from a status whose error is no aggregate is
    the same on every heap. *)
Lemma convertStatus_without_aggregate (s : StepStatus) (h h' : heap) :
  is_multi (StepErr s) = false ->
  (convertStatus s h).1 = (convertStatus s h').1.
Proof.
  intros Hm. unfold convertStatus. unfold_M.
  destruct (StepState s) as [st|]; simpl.
  - destruct (OOMKilled st).
    + destruct (AppendTo_text (StepErr s) (Errorf "oom killed") h Hm) as [N1 T1].
      destruct (AppendTo_text (StepErr s) (Errorf "oom killed") h' Hm) as [N2 T2].
      destruct (AppendTo (StepErr s) _ h) as [e1 h1].
      destruct (AppendTo (StepErr s) _ h') as [e2 h2]. simpl in *.
      rewrite N1, N2. unfold Error. simpl. by rewrite T1, T2.
    + destruct (negb (ExitCode st =? 0)).
      * destruct (AppendTo_text (StepErr s)
                    (Errorf ("exit status " +:+ pretty (ExitCode st))) h Hm) as [N1 T1].
        destruct (AppendTo_text (StepErr s)
                    (Errorf ("exit status " +:+ pretty (ExitCode st))) h' Hm) as [N2 T2].
        destruct (AppendTo (StepErr s) _ h) as [e1 h1].
        destruct (AppendTo (StepErr s) _ h') as [e2 h2]. simpl in *.
        rewrite N1, N2. unfold Error. simpl. by rewrite T1, T2.
      * simpl. unfold Error. by destruct (StepErr s).
  - unfold Error. by destruct (StepErr s).
Qed.

(** X17: when the step error of a complete entry is nil or a plain error,
    not an aggregate, polling the entry twice in a row gives the same
    response without error, and neither poll blocks. *)
Theorem repeated_poll_same_without_aggregate (w : World) (ctx ctx' : nat) (id : string)
    (s : StepStatus) :
  id <> "" ->
  stepStatus (executor w) !! id = Some s ->
  Status s = Complete ->
  is_multi (StepErr s) = false ->
  exists w1 w2 resp,
    step w (CallPollStep ctx id) = Some (w1, PollReturned id resp None) /\
    step w1 (CallPollStep ctx' id) = Some (w2, PollReturned id resp None) /\
    tasks w2 = tasks w /\
    executor w2 = executor w.
Proof.
  intros Hid Hs Hcomp Hm.
  exists (set_errors (convertStatus s (errors w)).2 w).
  exists (set_errors (convertStatus s (convertStatus s (errors w)).2).2
            (set_errors (convertStatus s (errors w)).2 w)).
  exists (convertStatus s (errors w)).1.
  split; [by apply PollStep_complete|]. split; [|done].
  rewrite (PollStep_complete _ ctx' id s Hid) by done. simpl.
  by rewrite (convertStatus_without_aggregate s (convertStatus s (errors w)).2 (errors w)).
Qed.

Lemma repeated_poll_same_without_aggregate_witness :
  exists w1 w2 resp,
    step (Sample.world_after Sample2.completed) (CallPollStep 0 "s")
      = Some (w1, PollReturned "s" resp None) /\
    step w1 (CallPollStep 1 "s") = Some (w2, PollReturned "s" resp None).
Proof.
  destruct (repeated_poll_same_without_aggregate
              (Sample.world_after Sample2.completed) 0 1 "s" Sample.ok_status)
    as (w1 & w2 & resp & H1 & H2 & _).
  - discriminate.
  - vm_compute. reflexivity.
  - reflexivity.
  - reflexivity.
  - exists w1, w2, resp. split; [exact H1|exact H2].
Defined.

(** * Properties of the server command *)

Section ServerFacts.

Import Server.

Lemma HasPrefix_spec (prefix s : list Byte.byte) :
  HasPrefix s prefix = true <-> exists rest, s = prefix ++ rest.
Proof.
  revert s. induction prefix as [|b prefix IH]; intros s; simpl.
  - split; [intros _; by exists s|intros _; by destruct s].
  - destruct s as [|a s]; simpl.
    + split; [done|]. by intros [rest Hrest].
    + rewrite andb_true_iff, IH. split.
      * intros [Hab [rest ->]]. apply Byte.byte_dec_bl in Hab as ->. by exists rest.
      * intros [rest [= -> ->]]. split; [by apply Byte.byte_dec_lb|by exists rest].
Qed.

(** [bytes.Contains] holds exactly of the slices that have the subslice
    somewhere inside. *)
Lemma bytes_Contains_spec (sub b : list Byte.byte) :
  bytes_Contains b sub = true <-> exists before after, b = before ++ sub ++ after.
Proof.
  induction b as [|a b IH]; cbn [bytes_Contains].
  - rewrite orb_false_r, HasPrefix_spec. split.
    + intros [rest Hrest]. by exists [], rest.
    + intros (before & after & Hb). destruct before; [by exists after|done].
  - rewrite orb_true_iff, HasPrefix_spec, IH. split.
    + intros [[rest Hrest]|(before & after & ->)].
      * by exists [], rest.
      * by exists (a :: before), after.
    + intros (before & after & Hb). destruct before as [|a' before]; simpl in Hb.
      * left. by exists after.
      * right. injection Hb as -> ->. by exists before, after.
Qed.

(** X18: [OutputSplitter.Write] hands the whole payload, unchanged, to the
    [Write] of exactly one of the two streams and returns the count and the
    error which that [Write] answers: the standard error when the bytes
    [level=error] occur anywhere in the payload, the standard output
    otherwise; nothing is handed to the other stream. *)
Theorem OutputSplitter_routes_by_level (p : list Byte.byte) (c : Console) :
  ((exists before after, p = before ++ level_error ++ after) ->
     (OutputSplitter_Write p c).1 = Stderr_Write c (Stderr c) p /\
     Stderr (OutputSplitter_Write p c).2 = Stderr c ++ p /\
     Stdout (OutputSplitter_Write p c).2 = Stdout c) /\
  (~ (exists before after, p = before ++ level_error ++ after) ->
     (OutputSplitter_Write p c).1 = Stdout_Write c (Stdout c) p /\
     Stdout (OutputSplitter_Write p c).2 = Stdout c ++ p /\
     Stderr (OutputSplitter_Write p c).2 = Stderr c).
Proof.
  unfold OutputSplitter_Write.
  pose proof (bytes_Contains_spec level_error p) as Hspec.
  destruct (bytes_Contains p level_error).
  - split; [done|]. intros Hn. destruct Hn. by apply Hspec.
  - split; [|done]. intros Hin. apply Hspec in Hin. discriminate.
Qed.

Lemma OutputSplitter_routes_by_level_witness :
  (OutputSplitter_Write error_line closed_stderr).1
    = (0, ErrPlain (Errorf "write /dev/stderr: file already closed")) /\
  Stderr (OutputSplitter_Write error_line closed_stderr).2 = [] ++ error_line /\
  Stdout (OutputSplitter_Write error_line closed_stderr).2 = [].
Proof.
  apply (proj1 (OutputSplitter_routes_by_level error_line closed_stderr)).
  exists (list_byte_of_string "time=now "), (list_byte_of_string " msg=failed").
  reflexivity.
Defined.

(** X19: after a sequence of writes, the standard error has been handed
    the payloads that contain [level=error] and the standard output the
    others, each stream in the order of the writes and without loss,
    whatever the streams have answered. *)
Theorem write_entries_splits (ps : list (list Byte.byte)) (c : Console) :
  Stderr (write_entries ps c)
    = Stderr c ++ concat (List.filter (fun p => bytes_Contains p level_error) ps) /\
  Stdout (write_entries ps c)
    = Stdout c ++ concat (List.filter (fun p => negb (bytes_Contains p level_error)) ps).
Proof.
  unfold write_entries. revert c. induction ps as [|p ps IH]; intros c; simpl.
  - by rewrite !app_nil_r.
  - destruct (IH (OutputSplitter_Write p c).2) as [IHe IHo]. rewrite IHe, IHo.
    unfold OutputSplitter_Write.
    destruct (bytes_Contains p level_error); simpl; by rewrite <- ?app_assoc.
Qed.

(** X20: [serverCommand.run] returns nil exactly when the configuration
    and the engine were obtained and the server ended without error or
    with [context.Canceled]; otherwise it returns the first failure: the
    error of the configuration, else that of the engine, else that of the
    server. *)
Theorem server_run_result (envfile : string) (env : RunEnv) :
  ((Server.run envfile env).1 = ErrNil <->
     config_err env = ErrNil /\ engine_err env = ErrNil /\
     (start_err env = ErrNil \/ start_err env = ErrPlain Canceled)) /\
  (config_err env <> ErrNil -> (Server.run envfile env).1 = config_err env) /\
  (config_err env = ErrNil -> engine_err env <> ErrNil ->
     (Server.run envfile env).1 = engine_err env) /\
  (config_err env = ErrNil -> engine_err env = ErrNil ->
     start_err env <> ErrPlain Canceled ->
     (Server.run envfile env).1 = start_err env).
Proof.
  unfold Server.run.
  destruct (config_err env) as [|c1|p1]; simpl.
  2, 3: repeat split; try done; intros (? & _); done.
  destruct (engine_err env) as [|c2|p2]; simpl.
  2, 3: repeat split; try done; intros (_ & ? & _); done.
  destruct (start_err env) as [|[| |msg]|p3]; simpl; repeat split; try done; auto.
  all: try (intros (_ & _ & [?|?]); done).
Qed.

Lemma server_run_result_witness :
  (Server.run ".env" env_interrupted).1 = ErrNil.
Proof.
  apply (proj2 (proj1 (server_run_result ".env" env_interrupted))).
  repeat split. by right.
Defined.



End ServerFacts.

(** * Further properties of waiting *)

Lemma step_one_waiter (w w' : World) (a : action) (ev : event) :
  (forall id, (length (waiters w id) <= 1)%nat) ->
  step w a = Some (w', ev) ->
  forall id, (length (waiters w' id) <= 1)%nat.
Proof.
  intros Hone H id. unfold waiters in *. effect_cases H; rewrite Hwait; try apply Hone.
  destruct (decide (id0 = id)) as [<-|Hne].
  - rewrite lookup_insert_eq. simpl. lia.
  - rewrite lookup_insert_ne by done. apply Hone.
Qed.

(** X22: in every reachable world the wait-channel registry holds at most
    one channel for an identifier: the first [PollStep] on a running step
    appends its channel to the absent entry, and each later one puts a
    one-element slice in its place. *)
Theorem at_most_one_waiter_registered (w : World) (id : string) :
  reachable w -> (length (waiters w id) <= 1)%nat.
Proof.
  intros (tr & evs & Hrun).
  assert (Hgen : forall tr w0 w1 evs,
            (forall id, (length (waiters w0 id) <= 1)%nat) ->
            run_trace w0 tr = Some (w1, evs) ->
            forall id, (length (waiters w1 id) <= 1)%nat).
  { clear. induction tr as [|a tr IH]; intros w0 w1 evs Hone H; simpl in H.
    - by simplify_eq.
    - destruct (step w0 a) as [[w2 ev]|] eqn:Hstep; [|done].
      destruct (run_trace w2 tr) as [[w3 evs3]|] eqn:Hrest; [|done]. simplify_eq.
      eapply IH; [|exact Hrest]. by eapply step_one_waiter. }
  eapply Hgen; [|exact Hrun].
  intros id'. unfold waiters. simpl. rewrite lookup_empty. simpl. lia.
Qed.

Lemma at_most_one_waiter_registered_witness :
  (length (waiters (Sample.world_after Sample.two_pollers) "s") <= 1)%nat.
Proof.
  apply at_most_one_waiter_registered.
  exists Sample.two_pollers. eexists. vm_compute. reflexivity.
Defined.

(** The sends of a goroutine leave the error objects alone. *)
Lemma sends_keep_errors (n t : nat) (w w' : World) (evs : list event) :
  run_trace w (replicate n (Send t)) = Some (w', evs) -> errors w' = errors w.
Proof.
  revert w evs. induction n as [|n IH]; intros w evs H; cbn [replicate run_trace] in H.
  - by simplify_eq.
  - destruct (step w (Send t)) as [[w1 ev]|] eqn:Hstep; [|done].
    destruct (run_trace w1 (replicate n (Send t))) as [[w2 evs2]|] eqn:Hrest; [|done].
    simplify_eq. rewrite (IH _ _ Hrest).
    unfold step in Hstep. repeat (case_match; try discriminate). by simplify_eq.
Qed.

(** X23: in a reachable world, a [PollStep] whose channel is in the waiter
    list of a running step when the run returns is served: the goroutine
    stores the complete status, its sends go through, and the waiting call
    then receives and returns the response converted from that status. *)
Theorem registered_poller_is_served (w : World) (t0 t ctx ch : nat)
    (r : StartStepRequest) (log : option nat) (env : StepEnv) :
  reachable w ->
  tasks w !! t0 = Some (GoRun r log) ->
  tasks w !! t = Some (PollWaiting ctx ch) ->
  ch ∈ waiters w (ID r) ->
  let st := complete_status (executeStep r env (errors w)).1 in
  let h := (executeStep r env (errors w)).2 in
  exists w1 w2 w3,
    step w (ReturnRun t0 env) = Some (w1, Silent) /\
    run_trace w1 (replicate (length (waiters w (ID r))) (Send t0))
      = Some (w2, replicate (length (waiters w (ID r))) Silent) /\
    step w2 (Receive t) = Some (w3, PollDelivered t (convertStatus st h).1) /\
    tasks w3 !! t = Some Returned /\
    stepStatus (executor w3) !! ID r = Some st.
Proof.
  intros Hreach Ht0 Ht Hin st h.
  pose proof (reachable_consistent w Hreach) as Hc.
  assert (Hrun : status_is w (ID r) Running).
  { apply (runs_running w Hc t0). right. eauto. }
  assert (Hne : t <> t0) by (intros ->; congruence).
  assert (Hlt0 : (t0 < length (tasks w))%nat) by (by eapply lookup_lt_Some).
  assert (Hw1 : exists w1,
            step w (ReturnRun t0 env) = Some (w1, Silent) /\
            stepStatus (executor w1) !! ID r = Some st /\
            status_chans w1 = status_chans w /\
            errors w1 = h /\
            tasks w1 !! t0 = Some (GoDeliver (ID r) st (waiters w (ID r))) /\
            tasks w1 !! t = Some (PollWaiting ctx ch)).
  { unfold step. rewrite Ht0. subst st h. unfold waiters.
    destruct (executeStep r env (errors w)) as [res h']. simpl.
    destruct (Detach r); eexists; (split; [reflexivity|]); simpl;
      rewrite lookup_insert_eq; repeat split; try done.
    - apply lookup_app_l_Some. by apply list_lookup_insert_eq.
    - apply lookup_app_l_Some. by rewrite list_lookup_insert_ne.
    - by apply list_lookup_insert_eq.
    - by rewrite list_lookup_insert_ne. }
  destruct Hw1 as (w1 & Hstep & Hst1 & Hch1 & Herr1 & Ht01 & Ht1).
  destruct (deliver_all (waiters w (ID r)) w1 t0 (ID r) st Ht01)
    as (w2 & Hsend & Htasks2 & Hexec2 & Hfull & _).
  { apply (waiters_nodup w Hc). }
  { intros c Hc'. rewrite Hch1. by apply (waiting_empty w Hc (ID r)). }
  assert (Ht2 : tasks w2 !! t = Some (PollWaiting ctx ch)).
  { rewrite Htasks2. by rewrite list_lookup_insert_ne. }
  assert (Herr2 : errors w2 = h).
  { by rewrite (sends_keep_errors _ _ _ _ _ Hsend). }
  exists w1, w2. unfold step at 2. rewrite Ht2, (Hfull ch Hin), Herr2.
  destruct (convertStatus st h) as [resp h'] eqn:Hconv. simpl.
  eexists. split; [done|]. split; [done|]. split; [reflexivity|]. simpl.
  split.
  - apply list_lookup_insert_eq. by eapply lookup_lt_Some.
  - by rewrite Hexec2.
Qed.

Lemma registered_poller_is_served_witness :
  exists w1 w2 w3,
    step (Sample.world_after Sample.polled_running) (ReturnRun 0 Sample.env_ok)
      = Some (w1, Silent) /\
    run_trace w1 [Send 0] = Some (w2, [Silent]) /\
    step w2 (Receive 1)
      = Some (w3, PollDelivered 1 (convertStatus Sample.ok_status []).1).
Proof.
  destruct (registered_poller_is_served (Sample.world_after Sample.polled_running)
              0 1 0 0 (Sample.request "s" 0 false false) None Sample.env_ok)
    as (w1 & w2 & w3 & H1 & H2 & H3 & _).
  - exists Sample.polled_running. eexists. vm_compute. reflexivity.
  - reflexivity.
  - reflexivity.
  - vm_compute. apply list_elem_of_here.
  - exists w1, w2, w3. split; [exact H1|]. split; [exact H2|exact H3].
Defined.
